(** * cosclient: token refresh, endpoint resolution and bulk deletion

    A shallow embedding of [client/client.go] (package [cosclient]) and of
    the coordinator loop it shares with the older single-endpoint variant of
    the client.  Go strings are byte strings ([string]), Go maps are [gmap]s
    (a nil map is [None]), an [error] is [option string] ([None] is [nil],
    [Some m] an error whose [Error()] is [m]).  The network, the clock, the
    order of map iteration and the standard-library codecs are supplied by
    an environment record; every request handed to an HTTP client is
    appended to a log so that "no network call" is a statement about the
    log. *)

From Stdlib Require Import ZArith Ascii String.
From stdpp Require Import base option list strings gmap relations.

(** ** Go primitives *)

Definition error := option string.

(** The [%s] verb of package [fmt] applied to an operand of type [error]. *)
Definition fmt_s (e : error) : string :=
  match e with
  | Some m => m
  | None => "%!s(<nil>)"
  end.

(** [strings.Split(s, sep)] for a one-byte separator, the only way the
    client calls it. *)
Fixpoint Split (s : string) (sep : ascii) : list string :=
  match s with
  | EmptyString => [EmptyString]
  | String c r =>
      if Ascii.eqb c sep then EmptyString :: Split r sep
      else match Split r sep with
           | p :: ps => String c p :: ps
           | [] => [String c EmptyString]
           end
  end.

Definition dash : ascii := "-"%char.
Definition newline : string := String (ascii_of_nat 10) EmptyString.

(** [s[:n]]: [None] stands for the run-time panic "slice bounds out of
    range". *)
Definition sliceTo (s : string) (n : nat) : option string :=
  if (n <=? String.length s)%nat then Some (substring 0 n s) else None.

(** [time.Time] as nanoseconds relative to the Unix epoch, [time.Duration]
    as nanoseconds. *)
Definition Time := Z.
Definition Duration := Z.
Definition Second : Duration := 1000000000%Z.
Definition Minute : Duration := (60 * Second)%Z.
Definition Time_Add (t : Time) (d : Duration) : Time := (t + d)%Z.
Definition Time_Before (t u : Time) : bool := (t <? u)%Z.
Definition Time_Unix (sec nsec : Z) : Time := (sec * Second + nsec)%Z.
(** [time.Time{}], January 1 of year 1. *)
Definition Time_zero : Time := Time_Unix (-62135596800) 0.

(** [int32] arithmetic of [sync/atomic]. *)
Definition wrap32 (z : Z) : Z := ((z + 2 ^ 31) mod 2 ^ 32 - 2 ^ 31)%Z.
Definition AddInt32 (count delta : Z) : Z := wrap32 (count + delta)%Z.

Inductive result (A : Type) :=
| Ok (a : A)
| Err (msg : string).
Arguments Ok {A} a.
Arguments Err {A} msg.

(** ** Data model *)

Record COSClient := mkClient {
  APIKey : string;
  IAMEndpoint : string;
  ID : string;
  Token : string;
  Expires : Time;
  Endpoints : option (gmap string string) (* BucketName -> URL *)
}.

Record BucketEntry := mkBucket {
  bName : string;
  bCreationDate : string;
  bLocationConstraint : string
}.

Record ObjectMetadata := mkObject {
  Key : string;
  LastModified : string;
  Size : Z
}.

Definition ObjectList := list ObjectMetadata.

Record ObjectContents := mkContents {
  cKey : string;
  cLastModified : string;
  cETag : string;
  cSize : Z;
  cStorageClass : string
}.

Record ObjectListResponse := mkObjectListResponse {
  NextContinuationToken : string;
  Contents : list ObjectContents
}.

(** The anonymous struct [data] that [Refresh] decodes the identity
    service's answer into. *)
Record TokenData := mkTokenData {
  Access_token : string;
  Expiration : Z;
  ErrorMessage : string
}.

(**                   type       reg        scope      name   url *)
Record COSEndpoints := mkEndpoints {
  ServiceEndpoints : gmap string (gmap string (gmap string (gmap string string)))
}.

(** ** The environment *)

Record Request := mkRequest {
  rMethod : string;
  rURL : string;
  rBody : string;
  rHeader : list (string * string)
}.

(** What the [Do] method of an [http.Client] followed by [ioutil.ReadAll]
    can give. *)
Inductive HTTPResult :=
| DoFailed (err : string)
| ReadFailed (err : string)
| Responded (StatusCode : Z) (Status : string) (body : string).

Record Env := mkEnv {
  (** the n-th reading of [time.Now()] *)
  time_Now : nat → Time;
  (** the answer to a request, given the requests made before it *)
  http_Do : list Request → Request → HTTPResult;
  (** the error of [http.NewRequest(method, url, _)] *)
  http_NewRequest : string → string → error;
  (** the order in which the n-th [range] statement yields a map's entries *)
  mapOrder : nat → ∀ A : Type, list A → list A;
  url_PathEscape : string → string;
  (** [fmt.Errorf(format)] without operands *)
  fmt_Errorf0 : string → string;
  md5_Sum : string → string;
  base64_EncodeToString : string → string;
  (** [json.Unmarshal(body, &data)] in [Refresh] *)
  json_TokenData : string → result TokenData;
  (** [json.Unmarshal(buf, &Endpoints)]: the pointer left in the package
      variable and the error *)
  json_Endpoints : string → option COSEndpoints * error;
  (** [xml.Unmarshal(body, &buckets)], giving [buckets.Buckets.Bucket] *)
  xml_Buckets : string → result (list BucketEntry);
  xml_Objects : string → result ObjectListResponse
}.

(** A [range] yields every entry exactly once. *)
Definition EnvOK (env : Env) : Prop :=
  ∀ n (A : Type) (l : list A), mapOrder env n A l ≡ₚ l.

Record World := mkWorld {
  wTicks : nat;                        (* readings of the clock so far *)
  wRanges : nat;                       (* [range] statements over maps so far *)
  wLog : list Request;                 (* requests handed to an HTTP client *)
  pkgEndpoints : option COSEndpoints   (* the package variable [Endpoints] *)
}.

Definition St : Type := COSClient * World.

Inductive Outcome (A : Type) :=
| Done (a : A) (s : St)
| Panic (msg : string).
Arguments Done {A} a s.
Arguments Panic {A} msg.

Definition M (A : Type) : Type := St → Outcome A.

#[global] Instance M_ret : MRet M := λ A a s, Done a s.
#[global] Instance M_bind : MBind M := λ A B k m s,
  match m s with
  | Done a s' => k a s'
  | Panic msg => Panic msg
  end.

Definition panic {A} (msg : string) : M A := λ _, Panic msg.
Definition getClient : M COSClient := λ s, Done s.1 s.
Definition getWorld : M World := λ s, Done s.2 s.
Definition putClient (c : COSClient) : M unit := λ s, Done () (c, s.2).

Section Client.
Context (env : Env).

Definition now : M Time := λ s,
  let w := s.2 in
  Done (time_Now env (wTicks w))
       (s.1, mkWorld (S (wTicks w)) (wRanges w) (wLog w) (pkgEndpoints w)).

(** [cli.Do(req)] and [ioutil.ReadAll(res.Body)]. *)
Definition send (req : Request) : M HTTPResult := λ s,
  let w := s.2 in
  Done (http_Do env (wLog w) req)
       (s.1, mkWorld (wTicks w) (wRanges w) (wLog w ++ [req]) (pkgEndpoints w)).

(** [for k, v := range m]: the entries in the order of this iteration. *)
Definition rangeMap {V} (m : gmap string V) : M (list (string * V)) := λ s,
  let w := s.2 in
  Done (mapOrder env (wRanges w) _ (map_to_list m))
       (s.1, mkWorld (wTicks w) (S (wRanges w)) (wLog w) (pkgEndpoints w)).

Definition refreshTime : Duration := (Minute * 5)%Z.

Definition NewClient (apikey id : string) : M (option COSClient * error) :=
  if decide (apikey = EmptyString) then mret (None, Some "Missing APIKey")
  else if decide (id = EmptyString) then mret (None, Some "Missing COS Instance ID")
  else mret (Some {| APIKey := apikey;
                     IAMEndpoint := "https://iam.cloud.ibm.com/identity/token";
                     ID := id;
                     Token := EmptyString;
                     Expires := Time_zero;
                     Endpoints := None |}, None).

Definition setToken (c : COSClient) (token : string) (expires : Time) : COSClient :=
  {| APIKey := APIKey c; IAMEndpoint := IAMEndpoint c; ID := ID c;
     Token := token; Expires := expires; Endpoints := Endpoints c |}.

Definition tokenRequest (c : COSClient) : Request :=
  {| rMethod := "POST";
     rURL := IAMEndpoint c;
     rBody := "apikey=" +:+ url_PathEscape env (APIKey c) +:+ "&" +:+
              "response_type=cloud_iam&" +:+
              "grant_type=urn:ibm:params:oauth:grant-type:apikey";
     rHeader := [("Accept", "application/json");
                 ("Content-Type", "application/x-www-form-urlencoded")] |}.

(** [RefreshMutex] serialises calls; a single caller passes through it. *)
Definition Refresh : M error :=
  client ← getClient;
  t ← now;
  if Time_Before (Time_Add t refreshTime) (Expires client) then mret None
  else
    match http_NewRequest env "POST" (IAMEndpoint client) with
    | Some err => mret (Some ("Error creating HTTP client: " +:+ err))
    | None =>
        res ← send (tokenRequest client);
        match res with
        | DoFailed err => mret (Some ("Error getting IAM token: " +:+ err))
        | ReadFailed err => mret (Some ("Error http response: " +:+ err))
        | Responded _ _ body =>
            match json_TokenData env body with
            | Err err =>
                mret (Some ("Error parsing response: " +:+ err +:+ newline +:+ body))
            | Ok data =>
                if decide (ErrorMessage data ≠ EmptyString)
                then mret (Some (fmt_Errorf0 env (ErrorMessage data)))
                else
                  _ ← putClient (setToken client (Access_token data)
                                   (Time_Unix (Expiration data) 0));
                  mret None
            end
        end
    end.

(** The arguments of [Debug] are evaluated before the call, whatever
    [Verbose] is: the two slices can panic. *)
Definition doHTTP (method path body : string) (num : Z)
    (headers : gmap string string) : M (string * error) :=
  _ ← Refresh;
  match http_NewRequest env method path with
  | Some err => mret (EmptyString, Some ("Creating HTTP client: " +:+ err))
  | None =>
      client ← getClient;
      let auth := ("Authorization", "Bearer " +:+ Token client) in
      match sliceTo auth.2 15 with
      | None => panic "slice bounds out of range"
      | Some _ =>
          idh ← (if (1 <? num)%Z
                 then match sliceTo (ID client) 15 with
                      | None => panic "slice bounds out of range"
                      | Some _ => mret [("ibm-service-instance-id", ID client)]
                      end
                 else mret []);
          extra ← rangeMap headers;
          res ← send {| rMethod := method; rURL := path; rBody := body;
                        rHeader := auth :: idh ++ extra |};
          match res with
          | DoFailed err => mret (EmptyString, Some err)
          | ReadFailed err => mret (EmptyString, Some err)
          | Responded code status rbody =>
              if decide ((code `quot` 100)%Z ≠ 2%Z)
              then
                let err := status in
                let err := if (0 <? String.length rbody)%nat
                           then err +:+ ": " +:+ rbody else err in
                mret (EmptyString, Some err)
              else mret (rbody, None)
          end
      end
  end.

Definition setPkgEndpoints (e : option COSEndpoints) : M unit := λ s,
  let w := s.2 in
  Done () (s.1, mkWorld (wTicks w) (wRanges w) (wLog w) e).

Definition setEndpoints (c : COSClient) (m : option (gmap string string)) : COSClient :=
  {| APIKey := APIKey c; IAMEndpoint := IAMEndpoint c; ID := ID c;
     Token := Token c; Expires := Expires c; Endpoints := m |}.

Definition GetCOSEndpoints : M (option COSEndpoints * error) :=
  w ← getWorld;
  match pkgEndpoints w with
  | Some e => mret (Some e, None)
  | None =>
      let path := "https://control.cloud-object-storage.cloud.ibm.com/v2/endpoints" in
      match http_NewRequest env "GET" path with
      | Some err => mret (None, Some ("Creating HTTP client: " +:+ err))
      | None =>
          res ← send {| rMethod := "GET"; rURL := path; rBody := EmptyString; rHeader := [] |};
          match res with
          | DoFailed err => mret (None, Some err)
          | ReadFailed err => mret (None, Some ("Error reading endpoints: " +:+ err))
          | Responded _ _ buf =>
              let decoded := json_Endpoints env buf in
              _ ← setPkgEndpoints decoded.1;
              match decoded.2 with
              | Some err => mret (None, Some ("Error parsing endpoints: " +:+ err))
              | None => mret (decoded.1, None)
              end
          end
      end
  end.

Definition ListBuckets : M (option (list BucketEntry) * error) :=
  let path := "https://s3.us.cloud-object-storage.appdomain.cloud" +:+ "?extended" in
  '(body, err) ← doHTTP "GET" path EmptyString 2 ∅;
  match err with
  | Some err => mret (None, Some ("ListBuckets/GET(" +:+ path +:+ "): " +:+ err))
  | None =>
      match xml_Buckets env body with
      | Err err => mret (None, Some ("Error parsing result: " +:+ err))
      | Ok buckets => mret (Some buckets, None)
      end
  end.

(** [endpoints.ServiceEndpoints] through a pointer that may be nil. *)
Definition deref (endpoints : option COSEndpoints) : M COSEndpoints :=
  match endpoints with
  | Some e => mret e
  | None => panic "invalid memory address or nil pointer dereference"
  end.

(** The loop over the names of the single-site regions. *)
Fixpoint siteLoop (siteNames : list string) (reg daType : string) : string :=
  match siteNames with
  | [] => daType
  | siteName :: rest =>
      if decide (siteName = reg) then "single-site" else siteLoop rest reg daType
  end.

(** The deployment type and region of a location constraint, or the
    message of the error for a constraint of another shape. *)
Definition locate (endpoints : option COSEndpoints) (loc : string)
    : M (result (string * string)) :=
  match Split loc dash with
  | [p0; _] =>
      let daType := "cross-region" in
      let reg := p0 in
      e ← deref endpoints;
      sites ← rangeMap (default ∅ (ServiceEndpoints e !! "single-site"));
      mret (Ok (siteLoop sites.*1 reg daType, reg))
  | [p0; p1; _] => mret (Ok ("regional", p0 +:+ "-" +:+ p1))
  | _ => mret (Err ("Can't split loc: " +:+ loc))
  end.

Definition publicNames (e : COSEndpoints) (daType reg : string) : gmap string string :=
  default ∅ (default ∅ (default ∅ (ServiceEndpoints e !! daType) !! reg) !! "public").

(** The body of the bucket loop once [bucket.Name == name].  In the inner
    [range] the loop variable is called [name] too: it is that variable,
    the name of the endpoint, that keys the cache. *)
Definition foundBucket (endpoints : option COSEndpoints) (name : string)
    (bucket : BucketEntry) : M (string * error) :=
  let loc := bLocationConstraint bucket in
  located ← locate endpoints loc;
  match located with
  | Err msg => mret (EmptyString, Some msg)
  | Ok (daType, reg) =>
      e ← deref endpoints;
      names ← rangeMap (publicNames e daType reg);
      match names with
      | (name', url) :: _ =>
          let url := "https://" +:+ url in
          client ← getClient;
          _ ← putClient
                (setEndpoints client
                   (Some (<[name' := url]> (default ∅ (Endpoints client)))));
          mret (url, None)
      | [] => mret (EmptyString, Some ("Can't find endpoint for bucket: " +:+ name))
      end
  end.

Fixpoint bucketLoop (endpoints : option COSEndpoints) (name : string)
    (buckets : list BucketEntry) : M (string * error) :=
  match buckets with
  | [] => mret (EmptyString, Some ("Can't find bucket: " +:+ name))
  | bucket :: rest =>
      if decide (bName bucket ≠ name) then bucketLoop endpoints name rest
      else foundBucket endpoints name bucket
  end.

Definition cached (client : COSClient) (name : string) : option string :=
  match Endpoints client with
  | Some m => m !! name
  | None => None
  end.

Definition GetEndpointForBucket (name : string) : M (string * error) :=
  client ← getClient;
  match cached client name with
  | Some url => mret (url, None)
  | None =>
      '(endpoints, err) ← GetCOSEndpoints;
      match err with
      | Some err =>
          mret (EmptyString, Some ("GetEndpointsForBucket/GetCOSEndpoint: " +:+ err))
      | None =>
          '(buckets, err) ← ListBuckets;
          match err with
          | Some err =>
              mret (EmptyString, Some ("GetEndpointsForBucket/ListBuckets: " +:+ err))
          | None => bucketLoop endpoints name (default [] buckets)
          end
      end
  end.

Definition toMetadata (obj : ObjectContents) : ObjectMetadata :=
  {| Key := cKey obj; LastModified := cLastModified obj; Size := cSize obj |}.

(** The pagination loop of [ListObjects]; [None] when [fuel] pages were not
    enough to reach an empty continuation token. *)
Fixpoint listLoop (fuel : nat) (svcURL bucket contToken : string)
    (res : ObjectList) : M (option (ObjectList * error)) :=
  match fuel with
  | 0 => mret None
  | S fuel =>
      let path := svcURL +:+ "/" +:+ bucket +:+ "?extended" in
      let path := if decide (contToken ≠ EmptyString)
                  then path +:+ "&continuation-token=" +:+ contToken
                  else path in
      '(body, err) ← doHTTP "GET" path EmptyString 2 ∅;
      match err with
      | Some err => mret (Some ([], Some err))
      | None =>
          match xml_Objects env body with
          | Err err => mret (Some ([], Some ("Error parsing result: " +:+ err)))
          | Ok objects =>
              let res := res ++ (toMetadata <$> Contents objects) in
              let contToken := NextContinuationToken objects in
              if decide (contToken = EmptyString) then mret (Some (res, None))
              else listLoop fuel svcURL bucket contToken res
          end
      end
  end.

Definition ListObjects (fuel : nat) (bucket : string)
    : M (option (ObjectList * error)) :=
  '(svcURL, err) ← GetEndpointForBucket bucket;
  match err with
  | Some err => mret (Some ([], Some err))
  | None => listLoop fuel svcURL bucket EmptyString []
  end.

Definition objectElement (name : string) : string :=
  "<Object><Key>" +:+ name +:+ "</Key></Object>".

(** The request body that [DeleteObjects] builds up. *)
Definition deleteBody (names : list string) : string :=
  foldl (λ body name, body +:+ objectElement name) "<Delete>" names
  +:+ "</Delete>".

Definition deleteHeaders (body : string) : gmap string string :=
  <["Content-MD5" := base64_EncodeToString env (md5_Sum env body)]> ∅.

Definition DeleteObjects (bucket : string) (names : list string) : M error :=
  '(svcURL, err) ← GetEndpointForBucket bucket;
  match err with
  | Some err =>
      mret (Some ("Getting getting endpoint(" +:+ bucket +:+ "): " +:+ err))
  | None =>
      let path := svcURL +:+ "/" +:+ bucket +:+ "?delete" in
      let body := deleteBody names in
      '(_, err) ← doHTTP "POST" path body 1 (deleteHeaders body);
      match err with
      | Some err => mret (Some ("DELETE/POST error(" +:+ path +:+ "): " +:+ err))
      | None => mret None
      end
  end.

End Client.

(** ** The bulk-deletion coordinator

    [DeleteBucketContents] is concurrent: the coordinator and the goroutines
    it starts are threads of an interleaving machine whose atomic steps are
    the accesses to the shared variables [count] (through [sync/atomic]) and
    [resErr] (plain reads and writes).  A call of [DeleteObjects] is in
    flight from the step that starts it to the step at which it returns and
    takes its effect on the client and the network.  The loop is the same
    in the older variant of the client, which prints the size of the batch
    before the call. *)

Definition batchEnd (start size : nat) : nat :=
  if (size <? start + 1000)%nat then size else (start + 1000)%nat.

(** The keys of [list[start:end]]. *)
Definition batchObjects (listing : ObjectList) (start end_ : nat) : list string :=
  Key <$> drop start (take end_ listing).

(** The partitioning loop alone: every [objects] slice it builds, in order;
    [None] when [fuel] iterations do not reach [end == size]. *)
Fixpoint batchLoop (fuel : nat) (listing : ObjectList) (start end_ : nat)
    : option (list (list string)) :=
  if decide (end_ = length listing) then Some []
  else match fuel with
       | 0 => None
       | S fuel =>
           let e := batchEnd start (length listing) in
           (batchObjects listing start e ::.) <$> batchLoop fuel listing e e
       end.

Definition batches (listing : ObjectList) : option (list (list string)) :=
  batchLoop (length listing) listing 0 0.

Inductive Phase :=
| Ready                   (* started by [go], not yet running *)
| Calling                 (* inside [client.DeleteObjects] *)
| Failed (err : string)   (* [err != nil], about to format the message *)
| Storing (msg : string)  (* message built, about to assign [*pErr] *)
| Exiting                 (* body left, the deferred decrement pending *)
| Finished.

#[global] Instance Phase_eq_dec : EqDecision Phase.
Proof. solve_decision. Defined.

Record Goroutine := mkGoroutine {
  gObjects : list string;
  gPhase : Phase
}.

Inductive PC :=
| LoopTest                          (* for end != size *)
| WaitSlot (objects : list string)  (* for atomic.LoadInt32(&count) >= 10 *)
| AddSlot (objects : list string)   (* atomic.AddInt32(&count, 1) *)
| Spawn (objects : list string)     (* go func(...) *)
| Drain                             (* for atomic.LoadInt32(&count) > 0 *)
| Leave                             (* return resErr *)
| Returned (err : error)
| Crashed (msg : string).

Record Coord := mkCoord {
  pc : PC;
  objs : ObjectList;   (* the variable [list] *)
  start : nat;
  end_ : nat;
  count : Z;
  resErr : error;
  gos : list Goroutine;
  shared : St
}.

Inductive Thread :=
| Main
| Go (i : nat).

Definition setPC (s : Coord) (p : PC) : Coord :=
  mkCoord p (objs s) (start s) (end_ s) (count s) (resErr s) (gos s) (shared s).

Definition setPhase (s : Coord) (i : nat) (g : Goroutine) (ph : Phase) : Coord :=
  mkCoord (pc s) (objs s) (start s) (end_ s) (count s) (resErr s)
          (<[i := mkGoroutine (gObjects g) ph]> (gos s)) (shared s).

Definition setCount (s : Coord) (c : Z) : Coord :=
  mkCoord (pc s) (objs s) (start s) (end_ s) c (resErr s) (gos s) (shared s).

Definition setResErr (s : Coord) (e : error) : Coord :=
  mkCoord (pc s) (objs s) (start s) (end_ s) (count s) e (gos s) (shared s).

Definition setShared (s : Coord) (st : St) : Coord :=
  mkCoord (pc s) (objs s) (start s) (end_ s) (count s) (resErr s) (gos s) st.

Definition wrapErr (e : error) : string :=
  "Error deleting bucket contents: " +:+ fmt_s e.

Section Coordinator.
Context (env : Env) (name : string).

Definition mainStep (s : Coord) : Coord :=
  match pc s with
  | LoopTest =>
      let size := length (objs s) in
      if decide (end_ s ≠ size) then
        let e := batchEnd (start s) size in
        mkCoord (WaitSlot (batchObjects (objs s) (start s) e)) (objs s) e e
                (count s) (resErr s) (gos s) (shared s)
      else setPC s Drain
  | WaitSlot objects =>
      if (10 <=? count s)%Z then s else setPC s (AddSlot objects)
  | AddSlot objects =>
      setPC (setCount s (AddInt32 (count s) 1)) (Spawn objects)
  | Spawn objects =>
      mkCoord LoopTest (objs s) (start s) (end_ s) (count s) (resErr s)
              (gos s ++ [mkGoroutine objects Ready]) (shared s)
  | Drain => if (0 <? count s)%Z then s else setPC s Leave
  | Leave => setPC s (Returned (resErr s))
  | Returned _ => s
  | Crashed _ => s
  end.

(** The goroutine body: the message is formatted from [resErr], the
    variable the pointer [pErr] refers to, not from [err]. *)
Definition goStep (i : nat) (s : Coord) : Coord :=
  match pc s, gos s !! i with
  | Crashed _, _ => s
  | _, None => s
  | _, Some g =>
      match gPhase g with
      | Ready => setPhase s i g Calling
      | Calling =>
          match DeleteObjects env name (gObjects g) (shared s) with
          | Panic msg => setPC s (Crashed msg)
          | Done None st => setShared (setPhase s i g Exiting) st
          | Done (Some err) st => setShared (setPhase s i g (Failed err)) st
          end
      | Failed err => setPhase s i g (Storing (wrapErr (resErr s)))
      | Storing msg => setResErr (setPhase s i g Exiting) (Some msg)
      | Exiting => setCount (setPhase s i g Finished) (AddInt32 (count s) (-1))
      | Finished => s
      end
  end.

Definition step (t : Thread) (s : Coord) : Coord :=
  match t with
  | Main => mainStep s
  | Go i => goStep i s
  end.

(** The state after the threads have taken their steps in the order of
    the schedule. *)
Definition run (sched : list Thread) (s : Coord) : Coord :=
  foldl (λ s t, step t s) s sched.

(** The coordinator once [ListObjects] has returned. *)
Definition enter (listing : ObjectList) (err : error) (st : St) : Coord :=
  let p := match err with
           | Some err => Returned (Some ("Error getting bucket contents: " +:+ err))
           | None => if decide (length listing = 0) then Returned None else LoopTest
           end in
  mkCoord p listing 0 0 0 None [] st.

(** [DeleteBucketContents] under a schedule; [None] when the listing did
    not end within [fuel] pages. *)
Definition DeleteBucketContents (fuel : nat) (sched : list Thread) (st : St)
    : option Coord :=
  match ListObjects env fuel name st with
  | Panic msg => Some (mkCoord (Crashed msg) [] 0 0 0 None [] st)
  | Done None _ => None
  | Done (Some (listing, err)) st' => Some (run sched (enter listing err st'))
  end.

End Coordinator.

Definition inFlight (s : Coord) : nat :=
  length (filter (λ g, gPhase g = Calling) (gos s)).

Definition live (s : Coord) : nat :=
  length (filter (λ g, gPhase g ≠ Finished) (gos s)).

(** ** Specification vocabulary *)

(** [strings.Count(s, sep)] for a one-byte separator. *)
Fixpoint Count (s : string) (sep : ascii) : nat :=
  match s with
  | EmptyString => 0
  | String c r => if Ascii.eqb c sep then S (Count r sep) else Count r sep
  end.

(** [strings.Join(parts, sep)]. *)
Fixpoint Join (parts : list string) (sep : string) : string :=
  match parts with
  | [] => EmptyString
  | [p] => p
  | p :: rest => p +:+ sep +:+ Join rest sep
  end.

(** The requests made between two states. *)
Definition madeBetween (s s' : St) : list Request :=
  drop (length (wLog s.2)) (wLog s'.2).

(** The token exchange of [Refresh] is attempted and does not deliver a
    token: the request cannot be built, the call or the reading of its
    answer fails, the answer does not decode, or it carries an error
    message. *)
Definition exchangeFails (env : Env) (s : St) : Prop :=
  Time_Before (Time_Add (time_Now env (wTicks s.2)) refreshTime) (Expires s.1) = false ∧
  (http_NewRequest env "POST" (IAMEndpoint s.1) ≠ None ∨
   match http_Do env (wLog s.2) (tokenRequest env s.1) with
   | DoFailed _ | ReadFailed _ => True
   | Responded _ _ body =>
       match json_TokenData env body with
       | Err _ => True
       | Ok data => ErrorMessage data ≠ EmptyString
       end
   end).


(** The messages [resErr] can hold: the wrapping prefix around the
    rendering of a nil error, [k] levels deep beyond the first. *)
Fixpoint nilChain (k : nat) : string :=
  match k with
  | 0 => wrapErr None
  | S k => wrapErr (Some (nilChain k))
  end.

(** ** Invariants of the coordinator *)

Definition weight {A} (P : A → Prop) `{!∀ x, Decision (P x)} (x : A) : nat :=
  if decide (P x) then 1 else 0.

(** The goroutine the coordinator has counted and not yet started. *)
Definition pending (p : PC) : nat :=
  match p with
  | Spawn _ => 1
  | _ => 0
  end.

Definition crashed (p : PC) : bool :=
  match p with
  | Crashed _ => true
  | _ => false
  end.

Definition adding (p : PC) : bool :=
  match p with
  | AddSlot _ => true
  | _ => false
  end.

Definition drained (p : PC) : bool :=
  match p with
  | Leave | Returned _ => true
  | _ => false
  end.

(** [count] is the number of unfinished goroutines, at most 10, at most 9
    when the coordinator has seen a free slot; none is left once the
    coordinator has seen [count] at 0. *)
Definition capInv (s : Coord) : Prop :=
  inFlight s ≤ 10 ∧
  (crashed (pc s) = false →
   count s = Z.of_nat (live s + pending (pc s)) ∧
   (count s ≤ if adding (pc s) then 9 else 10)%Z ∧
   (drained (pc s) = true → live s = 0)).

Definition chain (e : error) : Prop := e = None ∨ ∃ k, e = Some (nilChain k).

Definition chainInv (s : Coord) : Prop :=
  chain (resErr s) ∧
  Forall (λ g, ∀ msg, gPhase g = Storing msg → ∃ k, msg = nilChain k) (gos s) ∧
  (∀ r, pc s = Returned r → chain r).

(** The request [doHTTP] hands to the HTTP client, and what it makes of
    the answer. *)
Definition requestOf (env : Env) (method path body : string) (num : Z)
    (headers : gmap string string) (s1 : St) : Request :=
  {| rMethod := method; rURL := path; rBody := body;
     rHeader := ("Authorization", "Bearer " +:+ Token s1.1)
                :: (if (1 <? num)%Z then [("ibm-service-instance-id", ID s1.1)] else [])
                ++ mapOrder env (wRanges s1.2) _ (map_to_list headers) |}.

Definition answerOf (res : HTTPResult) : string * error :=
  match res with
  | DoFailed err => (EmptyString, Some err)
  | ReadFailed err => (EmptyString, Some err)
  | Responded code status rbody =>
      if decide ((code `quot` 100)%Z ≠ 2%Z)
      then (EmptyString,
            Some (if (0 <? String.length rbody)%nat
                  then status +:+ ": " +:+ rbody else status))
      else (rbody, None)
  end.

(** The batch built and not yet handed to a goroutine. *)
Definition pendingBatch (p : PC) : list (list string) :=
  match p with
  | WaitSlot objects | AddSlot objects | Spawn objects => [objects]
  | _ => []
  end.

(** The batches the loop still has to build from [start]. *)
Definition remaining (listing : ObjectList) (start : nat) : list (list string) :=
  default [] (batchLoop (length listing - start) listing start start).

Definition batchInv (listing : ObjectList) (bs : list (list string)) (s : Coord) : Prop :=
  crashed (pc s) = false →
  objs s = listing ∧ start s = end_ s ∧ start s ≤ length listing ∧
  (drained (pc s) = true ∨ pc s = Drain → start s = length listing) ∧
  (gObjects <$> gos s) ++ pendingBatch (pc s) ++ remaining listing (start s) = bs.

(** ** The other bucket and object operations *)

Section Operations.
Context (env : Env).

Definition DeleteBucket (name : string) : M error :=
  '(svcURL, err) ← GetEndpointForBucket env name;
  match err with
  | Some err => mret (Some err)
  | None =>
      let path := svcURL +:+ "/" +:+ name in
      '(_, err) ← doHTTP env "DELETE" path EmptyString 1 ∅;
      mret err
  end.

Definition GetBucketLocation (name : string) : M (string * error) :=
  '(svcURL, err) ← GetEndpointForBucket env name;
  match err with
  | Some err => mret (EmptyString, Some err)
  | None =>
      let path := svcURL +:+ "/" +:+ name +:+ "?location" in
      '(body, err) ← doHTTP env "GET" path EmptyString 1 ∅;
      mret (body, err)
  end.


Definition UploadObject (bucket name data : string) : M error :=
  '(svcURL, err) ← GetEndpointForBucket env bucket;
  match err with
  | Some err =>
      mret (Some ("Getting getting endpoint(" +:+ bucket +:+ "): " +:+ err))
  | None =>
      let path := svcURL +:+ "/" +:+ bucket +:+ "/" +:+ name in
      '(_, err) ← doHTTP env "PUT" path data 1 ∅;
      match err with
      | Some err => mret (Some ("PUT error(" +:+ path +:+ "): " +:+ err))
      | None => mret None
      end
  end.

Definition DeleteObject (bucket name : string) : M error :=
  '(svcURL, err) ← GetEndpointForBucket env bucket;
  match err with
  | Some err =>
      mret (Some ("Getting getting endpoint(" +:+ bucket +:+ "): " +:+ err))
  | None =>
      let path := svcURL +:+ "/" +:+ bucket +:+ "/" +:+ name in
      '(_, err) ← doHTTP env "DELETE" path EmptyString 1 ∅;
      match err with
      | Some err => mret (Some ("DELETE error(" +:+ path +:+ "): " +:+ err))
      | None => mret None
      end
  end.

Definition DownloadObject (bucket name : string) : M (string * error) :=
  '(svcURL, err) ← GetEndpointForBucket env bucket;
  match err with
  | Some err =>
      mret (EmptyString,
            Some ("Getting getting endpoint(" +:+ bucket +:+ "): " +:+ err))
  | None =>
      let path := svcURL +:+ "/" +:+ bucket +:+ "/" +:+ name in
      '(data, err) ← doHTTP env "GET" path EmptyString 1 ∅;
      mret (data, err)
  end.

(** [DeleteBucketAll] under a schedule of the coordinator; [None] when the
    listing or the schedule ends before [DeleteBucketContents] returns. *)
Definition DeleteBucketAll (name : string) (fuel : nat) (sched : list Thread)
    (st : St) : option (Outcome error) :=
  match DeleteBucketContents env name fuel sched st with
  | None => None
  | Some c =>
      match pc c with
      | Returned (Some err) => Some (Done (Some err) (shared c))
      | Returned None => Some (DeleteBucket name (shared c))
      | Crashed msg => Some (Panic msg)
      | _ => None
      end
  end.

End Operations.

(** A goroutine whose [DeleteObjects] has returned an error that is not yet
    stored. *)
Definition hasFailed (g : Goroutine) : Prop :=
  match gPhase g with
  | Failed _ | Storing _ => True
  | _ => False
  end.

(** Once a batch has failed, the coordinator cannot return nil. *)
Definition failInv (s : Coord) : Prop :=
  crashed (pc s) = false →
  (resErr s ≠ None ∨ ∃ i g, gos s !! i = Some g ∧ hasFailed g) ∧
  (∀ r, pc s = Returned r → r ≠ None).

(** The number of batches for [size] keys. *)
Definition batchCount (size : nat) : nat := (size + 999) / 1000.


(** ** Frames *)

(** The fields [Refresh] and the cache never touch. *)
Definition sameKeys (c c' : COSClient) : Prop :=
  APIKey c' = APIKey c ∧ IAMEndpoint c' = IAMEndpoint c ∧ ID c' = ID c.

(** From [s] to [s'] only GETs and token exchanges were sent. *)
Definition reads (env : Env) (s s' : St) : Prop :=
  sameKeys s.1 s'.1 ∧
  ∃ l, wLog s'.2 = wLog s.2 ++ l ∧
       Forall (λ r, rMethod r = "GET" ∨ r = tokenRequest env s.1) l.

(** From [s1] to [s2] one request without extra headers was sent, after at
    most a token exchange, and [(r, err)] is what [doHTTP] makes of its
    answer. *)
Definition sentOnce (env : Env) (method path body : string) (s1 s2 : St)
    (r : string) (err : error) : Prop :=
  ∃ pre,
    let req := {| rMethod := method; rURL := path; rBody := body;
                  rHeader := [("Authorization", "Bearer " +:+ Token s2.1)] |} in
    madeBetween s1 s2 = pre ++ [req] ∧
    (pre = [] ∨ pre = [tokenRequest env s1.1]) ∧
    (r, err) = answerOf (http_Do env (wLog s1.2 ++ pre) req).

(** ** Progress of the coordinator *)

Definition stopped (p : PC) : bool :=
  match p with
  | Returned _ | Crashed _ => true
  | _ => false
  end.

(** The steps a goroutine has left to take. *)
Definition rank (ph : Phase) : nat :=
  match ph with
  | Ready => 5
  | Calling => 4
  | Failed _ => 3
  | Storing _ => 2
  | Exiting => 1
  | Finished => 0
  end.

Definition work (s : Coord) : nat := sum_list_with (λ g, rank (gPhase g)) (gos s).

(** The coordinator's own steps to its return, at most. *)
Definition togo (s : Coord) : nat :=
  let rest := 4 * (length (objs s) - start s) in
  match pc s with
  | Returned _ | Crashed _ => 0
  | Leave => 1
  | Drain => 2
  | LoopTest => 3 + rest
  | Spawn _ => 4 + rest
  | AddSlot _ => 5 + rest
  | WaitSlot _ => 6 + rest
  end.

(** ** A concrete service

    One bucket [mybucket] in the cross-region [us] deployment, whose public
    endpoint is named [us-geo]; the bucket holds one object.  The identity
    service answers when [iamUp]; the multi-object delete is answered with
    [deleteStatus].  The bodies stand for the documents the services send
    (the quotes of JSON written as apostrophes); the codecs of this
    environment decode exactly these. *)
Module Scenario.

Definition tokenBody : string :=
  "{'access_token':'eyJraWQiOiIyMDIw','expiration':1600003600}".

Definition topologyBody : string :=
  "{'service-endpoints':{'cross-region':{'us':{'public':{'us-geo':'s3.us.cloud-object-storage.appdomain.cloud'}}}}}".

Definition bucketsBody : string :=
  "<ListAllMyBucketsResult><Buckets><Bucket><Name>mybucket</Name><LocationConstraint>us-smart</LocationConstraint></Bucket></Buckets></ListAllMyBucketsResult>".

Definition objectsBody : string :=
  "<ListBucketResult><Name>mybucket</Name><Contents><Key>a.txt</Key><Size>11</Size></Contents></ListBucketResult>".

Definition host : string := "s3.us.cloud-object-storage.appdomain.cloud".

Definition topology : COSEndpoints :=
  {| ServiceEndpoints :=
       {[ "cross-region" := {[ "us" := {[ "public" := {[ "us-geo" := host ]} ]} ]} ]} |}.

Definition iamURL : string := "https://iam.cloud.ibm.com/identity/token".
Definition controlURL : string :=
  "https://control.cloud-object-storage.cloud.ibm.com/v2/endpoints".
Definition listURL : string :=
  "https://s3.us.cloud-object-storage.appdomain.cloud?extended".
Definition objectsURL : string :=
  "https://s3.us.cloud-object-storage.appdomain.cloud/mybucket?extended".
Definition deleteURL : string :=
  "https://s3.us.cloud-object-storage.appdomain.cloud/mybucket?delete".

Definition serve (iamUp : bool) (deleteStatus : Z) (log : list Request)
    (req : Request) : HTTPResult :=
  if String.eqb (rURL req) iamURL then
    if iamUp then Responded 200 "200 OK" tokenBody
    else DoFailed "dial tcp: lookup iam.cloud.ibm.com: no such host"
  else if String.eqb (rURL req) controlURL then Responded 200 "200 OK" topologyBody
  else if String.eqb (rURL req) listURL then Responded 200 "200 OK" bucketsBody
  else if String.eqb (rURL req) objectsURL then Responded 200 "200 OK" objectsBody
  else if String.eqb (rURL req) deleteURL then
    if (deleteStatus =? 200)%Z then Responded 200 "200 OK" "<DeleteResult></DeleteResult>"
    else Responded deleteStatus "500 Internal Server Error" "<Error><Code>InternalError</Code></Error>"
  else Responded 404 "404 Not Found" EmptyString.

Definition env (iamUp : bool) (deleteStatus : Z) : Env :=
  {| time_Now := λ _, Time_Unix 1600000000 0;
     http_Do := serve iamUp deleteStatus;
     http_NewRequest := λ _ _, None;
     mapOrder := λ _ _ l, l;
     url_PathEscape := λ s, s;
     fmt_Errorf0 := λ s, s;
     md5_Sum := λ body, "md5(" +:+ body +:+ ")";
     base64_EncodeToString := λ sum, "base64(" +:+ sum +:+ ")";
     json_TokenData := λ body,
       if String.eqb body tokenBody
       then Ok {| Access_token := "eyJraWQiOiIyMDIw"; Expiration := 1600003600;
                  ErrorMessage := EmptyString |}
       else Err "unexpected end of JSON input";
     json_Endpoints := λ buf,
       if String.eqb buf topologyBody then (Some topology, None)
       else (None, Some "unexpected end of JSON input");
     xml_Buckets := λ body,
       if String.eqb body bucketsBody
       then Ok [ {| bName := "mybucket"; bCreationDate := EmptyString;
                    bLocationConstraint := "us-smart" |} ]
       else Err "EOF";
     xml_Objects := λ body,
       if String.eqb body objectsBody
       then Ok {| NextContinuationToken := EmptyString;
                  Contents := [ {| cKey := "a.txt"; cLastModified := EmptyString;
                                   cETag := EmptyString; cSize := 11;
                                   cStorageClass := EmptyString |} ] |}
       else Err "EOF" |}.

Definition world : World :=
  {| wTicks := 0; wRanges := 0; wLog := []; pkgEndpoints := None |}.

(** A client as [NewClient] makes it. *)
Definition fresh : COSClient :=
  {| APIKey := "key"; IAMEndpoint := iamURL;
     ID := "ad58e4cf-c3f4-49b8-b34a-70a15a416c58";
     Token := EmptyString; Expires := Time_zero; Endpoints := None |}.

(** A client whose token ran out ten minutes ago. *)
Definition stale : COSClient :=
  {| APIKey := "key"; IAMEndpoint := iamURL;
     ID := "ad58e4cf-c3f4-49b8-b34a-70a15a416c58";
     Token := "eyJleHBpcmVk"; Expires := Time_Unix 1599999400 0; Endpoints := None |}.

(** A client whose token is good for another hour. *)
Definition valid : COSClient :=
  {| APIKey := "key"; IAMEndpoint := iamURL;
     ID := "ad58e4cf-c3f4-49b8-b34a-70a15a416c58";
     Token := "eyJraWQiOiIyMDIw"; Expires := Time_Unix 1600003600 0; Endpoints := None |}.

(** One object, and a listing of 2500. *)
Definition object_a : ObjectMetadata :=
  {| Key := "a.txt"; LastModified := EmptyString; Size := 11 |}.

(** One batch: the coordinator starts it, the goroutine runs to its end, the
    coordinator drains and returns. *)
Definition oneBatch : list Thread :=
  [Main; Main; Main; Main; Go 0; Go 0; Go 0; Go 0; Go 0; Main; Main; Main].

(** A topology with a single-site region. *)
Definition sitesTopology : COSEndpoints :=
  {| ServiceEndpoints :=
       {[ "single-site" := {[ "hkg02" := {[ "public" := {[ "hkg02" := "s3.hkg02.cloud-object-storage.appdomain.cloud" ]} ]} ]} ]} |}.

Definition manyObjects : ObjectList := replicate 2500 object_a.

(** A client whose service instance id has ten bytes. *)
Definition shortID : COSClient :=
  {| APIKey := "key"; IAMEndpoint := iamURL; ID := "myinstance";
     Token := "eyJraWQiOiIyMDIw"; Expires := Time_Unix 1600003600 0; Endpoints := None |}.

End Scenario.

(** * Proofs *)

Lemma Split_nonempty s sep : Split s sep ≠ [].
Proof.
  destruct s as [|c r]; simpl; [done|].
  destruct (Ascii.eqb c sep); [done|].
  by destruct (Split r sep).
Qed.

Lemma Split_length s sep : length (Split s sep) = S (Count s sep).
Proof.
  induction s as [|c r IH]; simpl; [done|].
  destruct (Ascii.eqb c sep); simpl; [by rewrite IH|].
  pose proof (Split_nonempty r sep) as Hne.
  destruct (Split r sep); [done|]. exact IH.
Qed.

Lemma Split_segments s sep : Forall (λ p, Count p sep = 0) (Split s sep).
Proof.
  induction s as [|c r IH]; simpl.
  - by repeat constructor.
  - destruct (Ascii.eqb c sep) eqn:Hc.
    + by constructor.
    + destruct (Split r sep) as [|p ps].
      * repeat constructor. simpl. by rewrite Hc.
      * inversion IH; subst. constructor; [|done]. simpl. by rewrite Hc.
Qed.

Lemma Join_cons p q rest sep :
  Join (p :: q :: rest) sep = p +:+ sep +:+ Join (q :: rest) sep.
Proof. done. Qed.

Lemma Join_Split s sep :
  Join (Split s sep) (String sep EmptyString) = s.
Proof.
  induction s as [|c r IH]; [done|].
  cbn [Split].
  pose proof (Split_nonempty r sep) as Hne.
  destruct (Ascii.eqb c sep) eqn:Hc.
  - apply Ascii.eqb_eq in Hc as ->.
    destruct (Split r sep) as [|p ps]; [done|].
    rewrite Join_cons, IH. done.
  - destruct (Split r sep) as [|p ps]; [done|].
    destruct ps as [|q ps].
    + simpl in *. by rewrite IH.
    + change (Join (String c p :: q :: ps) (String sep EmptyString))
        with (String c (Join (p :: q :: ps) (String sep EmptyString))).
      by rewrite IH.
Qed.

Lemma siteLoop_elem_of names reg :
  siteLoop names reg "cross-region" =
  if decide (reg ∈ names) then "single-site" else "cross-region".
Proof.
  induction names as [|n rest IH]; cbn [siteLoop].
  - rewrite decide_False; [done|]. apply not_elem_of_nil.
  - destruct (decide (n = reg)) as [->|Hne].
    + rewrite decide_True; [done|]. apply elem_of_cons. by left.
    + rewrite IH. destruct (decide (reg ∈ rest)) as [Hin|Hnot].
      * rewrite decide_True; [done|]. apply elem_of_cons. by right.
      * rewrite decide_False; [done|]. rewrite elem_of_cons. intros [->|?]; done.
Qed.

Lemma rangeMap_keys {V} env (m : gmap string V) n k :
  EnvOK env → k ∈ (mapOrder env n _ (map_to_list m)).*1 ↔ k ∈ dom m.
Proof.
  intros HO. rewrite (HO n _ (map_to_list m)).
  rewrite elem_of_dom. rewrite list_elem_of_fmap. split.
  - intros [[k' v] [-> Hin]]. apply elem_of_map_to_list in Hin. eauto.
  - intros [v Hv]. exists (k, v). split; [done|]. by apply elem_of_map_to_list.
Qed.

Ltac run_M :=
  cbv beta iota delta [mbind M_bind mret M_ret getClient getWorld putClient
                       rangeMap send now deref panic setPkgEndpoints];
  cbn [fst snd wTicks wRanges wLog pkgEndpoints].

(** C4: the segments [strings.Split] gives for a location constraint contain
    no dash, join back to the constraint and are one more than its dashes.
    With two segments the deployment is [single-site] when the first one is
    the name of a single-site region of the topology and [cross-region]
    otherwise, and the region is the first segment; with three segments it
    is [regional] and the region is the first two joined by a dash; with
    any other number the constraint is refused, and [GetEndpointForBucket]
    returns that error for the bucket found. *)
Theorem locate_by_segments env e loc s :
  EnvOK env →
  let parts := Split loc dash in
  let sites := default ∅ (ServiceEndpoints e !! "single-site") in
  (Forall (λ p, Count p dash = 0) parts ∧ Join parts "-" = loc ∧
   length parts = S (Count loc dash)) ∧
  ∃ located s',
    locate env (Some e) loc s = Done located s' ∧
    s'.1 = s.1 ∧ wLog s'.2 = wLog s.2 ∧
    (∀ p0 p1, parts = [p0; p1] → p0 ∉ dom sites →
       located = Ok ("cross-region", p0)) ∧
    (∀ p0 p1, parts = [p0; p1] → p0 ∈ dom sites →
       located = Ok ("single-site", p0)) ∧
    (∀ p0 p1 p2, parts = [p0; p1; p2] →
       located = Ok ("regional", p0 +:+ "-" +:+ p1)) ∧
    (length parts ≠ 2 → length parts ≠ 3 →
       located = Err ("Can't split loc: " +:+ loc) ∧
       ∀ name bucket, bLocationConstraint bucket = loc →
         foundBucket env (Some e) name bucket s =
         Done (EmptyString, Some ("Can't split loc: " +:+ loc)) s').
Proof.
  intros HO parts sites. split.
  { split; [apply Split_segments|]. split; [apply Join_Split|apply Split_length]. }
  unfold foundBucket, locate. fold parts.
  destruct parts as [|p0 [|p1 [|p2 [|p3 rest]]]] eqn:Hparts.
  - eexists _, _. run_M. split; [done|]. repeat split; try done.
    intros name bucket ->. fold parts. by rewrite Hparts.
  - eexists _, _. run_M. split; [done|]. repeat split; try done.
    intros name bucket ->. fold parts. by rewrite Hparts.
  - eexists _, _. run_M. split; [done|]. repeat split; try done.
    + intros ? ? [= <- <-] Hnot. rewrite siteLoop_elem_of.
      rewrite decide_False; [done|]. by rewrite rangeMap_keys.
    + intros ? ? [= <- <-] Hin. rewrite siteLoop_elem_of.
      rewrite decide_True; [done|]. by rewrite rangeMap_keys.
  - eexists _, _. run_M. split; [done|]. repeat split; try done.
    by intros ? ? ? [= <- <- <-].
  - eexists _, _. run_M. split; [done|]. repeat split; try done.
    intros name bucket ->. fold parts. by rewrite Hparts.
Qed.

Lemma batchEnd_bounds start size :
  start < size → start < batchEnd start size ≤ size ∧ batchEnd start size - start ≤ 1000.
Proof.
  intros Hlt. unfold batchEnd.
  destruct (size <? start + 1000) eqn:Hc.
  - apply Nat.ltb_lt in Hc. lia.
  - apply Nat.ltb_ge in Hc. lia.
Qed.

Lemma batchObjects_length (listing : ObjectList) start e :
  start ≤ e → e ≤ length listing → length (batchObjects listing start e) = e - start.
Proof.
  intros H1 H2. unfold batchObjects.
  rewrite length_fmap, length_drop, length_take. lia.
Qed.

Lemma batchObjects_drop (listing : ObjectList) start e :
  start ≤ e → e ≤ length listing →
  batchObjects listing start e ++ (Key <$> drop e listing) = Key <$> drop start listing.
Proof.
  intros H1 H2. unfold batchObjects. rewrite <- fmap_app. f_equal.
  rewrite <- (take_drop e listing) at 3.
  rewrite drop_app_le; [done|]. rewrite length_take. lia.
Qed.

Lemma batchLoop_step fuel (listing : ObjectList) start :
  start ≠ length listing →
  batchLoop (S fuel) listing start start =
  (batchObjects listing start (batchEnd start (length listing)) ::.) <$>
    batchLoop fuel listing (batchEnd start (length listing))
              (batchEnd start (length listing)).
Proof. intros Hne. cbn [batchLoop]. by rewrite decide_False. Qed.

Lemma batchLoop_done fuel (listing : ObjectList) :
  batchLoop fuel listing (length listing) (length listing) = Some [].
Proof. destruct fuel; cbn [batchLoop]; by rewrite decide_True. Qed.

Lemma batchLoop_total fuel (listing : ObjectList) start :
  start ≤ length listing → length listing - start ≤ fuel →
  ∃ bs, batchLoop fuel listing start start = Some bs ∧
        concat bs = Key <$> drop start listing ∧
        Forall (λ b, 1 ≤ length b ≤ 1000) bs.
Proof.
  revert start. induction fuel as [|fuel IH]; intros start Hle Hfuel.
  - assert (start = length listing) as -> by lia.
    exists []. rewrite batchLoop_done, drop_all. by repeat split.
  - destruct (decide (start = length listing)) as [->|Hne].
    + exists []. rewrite batchLoop_done, drop_all. by repeat split.
    + rewrite batchLoop_step by done.
      destruct (batchEnd_bounds start (length listing)) as [[Hlt Hsz] Hk]; [lia|].
      destruct (IH (batchEnd start (length listing))) as (bs & -> & Hcat & Hall); [lia..|].
      eexists. split; [done|]. split.
      * cbn [concat]. rewrite Hcat. apply batchObjects_drop; lia.
      * constructor; [|done]. rewrite batchObjects_length by lia. lia.
Qed.

(** ** The coordinator's invariants *)

Section FilterLength.
Context {A : Type} (P : A → Prop) `{!∀ x, Decision (P x)}.

Lemma filter_length_app (l k : list A) :
  length (filter P (l ++ k)) = length (filter P l) + length (filter P k).
Proof. by rewrite filter_app, length_app. Qed.

Lemma filter_length_insert (l : list A) i x y :
  l !! i = Some x →
  length (filter P (<[i:=y]> l)) + weight P x = length (filter P l) + weight P y.
Proof.
  revert i. induction l as [|a l IH]; intros [|i] Hi; simplify_eq/=.
  - rewrite !filter_cons. unfold weight. repeat case_decide; simpl; lia.
  - rewrite !filter_cons. specialize (IH _ Hi).
    case_decide; simpl; lia.
Qed.

Lemma filter_length_zero (l : list A) :
  length (filter P l) = 0 → Forall (λ x, ¬ P x) l.
Proof.
  induction l as [|a l IH]; [by constructor|].
  rewrite filter_cons. case_decide; simpl; [lia|].
  intros Hl. constructor; auto.
Qed.

End FilterLength.

Lemma inFlight_le_live s : inFlight s ≤ live s.
Proof.
  unfold inFlight, live. induction (gos s) as [|g l IH]; [done|].
  rewrite !filter_cons. repeat case_decide; simpl; try lia.
  congruence.
Qed.

Lemma AddInt32_small c d :
  (-10 ≤ c ≤ 10)%Z → (-1 ≤ d ≤ 1)%Z → AddInt32 c d = (c + d)%Z.
Proof.
  intros Hc Hd. unfold AddInt32, wrap32.
  rewrite Z.mod_small; lia.
Qed.

Lemma capInv_enter listing err st : capInv (enter listing err st).
Proof.
  unfold capInv, enter, inFlight, live. cbn.
  split; [lia|]. intros _. destruct err; [done|]. case_decide; done.
Qed.

Lemma capInv_mainStep s : capInv s → capInv (mainStep s).
Proof.
  intros [Hfl Hinv]. unfold mainStep.
  pose proof (inFlight_le_live s) as Hle.
  destruct (pc s) eqn:Hpc; cbn in Hinv.
  - destruct Hinv as (Hc & H10 & _); [done|].
    case_decide; (split; [done|]); intros _; cbn; unfold live in *; cbn; lia.
  - destruct Hinv as (Hc & H10 & _); [done|].
    destruct (10 <=? count s)%Z eqn:Hten.
    + split; [done|]. rewrite Hpc. cbn. lia.
    + apply Z.leb_gt in Hten. split; [done|]. intros _; cbn; unfold live in *; cbn; lia.
  - destruct Hinv as (Hc & H9 & _); [done|].
    split; [done|]. intros _. cbn. rewrite AddInt32_small by lia.
    unfold live in *. cbn. lia.
  - destruct Hinv as (Hc & H10 & _); [done|].
    unfold capInv, inFlight, live in *. cbn.
    rewrite !filter_length_app. cbn.
    rewrite decide_False by done. rewrite decide_True by done.
    cbn. split; [lia|]. intros _. lia.
  - destruct Hinv as (Hc & H10 & _); [done|].
    destruct (0 <? count s)%Z eqn:Hpos.
    + split; [done|]. rewrite Hpc. cbn. lia.
    + apply Z.ltb_ge in Hpos. split; [done|]. intros _; cbn; unfold live in *; cbn; lia.
  - destruct Hinv as (Hc & H10 & Hd); [done|].
    split; [done|]. intros _; cbn; unfold live in *; cbn. lia.
  - split; [done|]. by rewrite Hpc.
  - split; [done|]. by rewrite Hpc.
Qed.

Lemma goStep_unfold env name i s :
  goStep env name i s =
  if crashed (pc s) then s
  else match gos s !! i with
       | None => s
       | Some g =>
           match gPhase g with
           | Ready => setPhase s i g Calling
           | Calling =>
               match DeleteObjects env name (gObjects g) (shared s) with
               | Panic msg => setPC s (Crashed msg)
               | Done None st => setShared (setPhase s i g Exiting) st
               | Done (Some err) st => setShared (setPhase s i g (Failed err)) st
               end
           | Failed err => setPhase s i g (Storing (wrapErr (resErr s)))
           | Storing msg => setResErr (setPhase s i g Exiting) (Some msg)
           | Exiting => setCount (setPhase s i g Finished) (AddInt32 (count s) (-1))
           | Finished => s
           end
       end.
Proof. unfold goStep. by destruct (pc s). Qed.

Lemma phase_weights (s : Coord) i g ph :
  gos s !! i = Some g →
  inFlight (setPhase s i g ph) + weight (λ g, gPhase g = Calling) g =
    inFlight s + weight (λ g, gPhase g = Calling) (mkGoroutine (gObjects g) ph) ∧
  live (setPhase s i g ph) + weight (λ g, gPhase g ≠ Finished) g =
    live s + weight (λ g, gPhase g ≠ Finished) (mkGoroutine (gObjects g) ph).
Proof.
  intros Hi. unfold inFlight, live, setPhase. cbn [gos].
  split; by apply filter_length_insert.
Qed.

Ltac weigh Hi ph :=
  let Hw := fresh "Hw" in
  pose proof (phase_weights _ _ _ ph Hi) as Hw;
  unfold weight in Hw; cbn [gPhase] in Hw;
  repeat first
    [ rewrite decide_True in Hw by congruence
    | rewrite decide_False in Hw
        by (let Hx := fresh in
            intros Hx; first [discriminate Hx | apply Hx; reflexivity]) ];
  destruct Hw.

(** A goroutine step that keeps the program counter and moves [count]
    with the number of live goroutines keeps the invariant. *)
Lemma capInv_keep s s' :
  capInv s → crashed (pc s) = false → pc s' = pc s →
  (count s' - Z.of_nat (live s') = count s - Z.of_nat (live s))%Z →
  live s' ≤ live s → capInv s'.
Proof.
  intros [Hfl Hinv] Hcr Hpc Hcount Hlive.
  pose proof (inFlight_le_live s').
  destruct (Hinv Hcr) as (Hc & H10 & Hd).
  assert (count s ≤ 10)%Z by (destruct (adding (pc s)); lia).
  split; [lia|]. rewrite Hpc. intros _.
  split; [lia|]. split; [destruct (adding (pc s)); lia|].
  intros Hdr. specialize (Hd Hdr). lia.
Qed.

Lemma capInv_goStep env name i s : capInv s → capInv (goStep env name i s).
Proof.
  intros Hinv. rewrite goStep_unfold.
  destruct (crashed (pc s)) eqn:Hcr; [done|].
  destruct (gos s !! i) as [g|] eqn:Hi; [|done].
  destruct g as [objects ph]. cbn [gPhase gObjects].
  destruct ph.
  - weigh Hi Calling.
    apply (capInv_keep s); [done..| |]; unfold live in *; cbn in *; lia.
  - destruct (DeleteObjects env name objects (shared s)) as [[err|] st|msg].
    + weigh Hi (Failed err).
      apply (capInv_keep s); [done..| |]; unfold live in *; cbn in *; lia.
    + weigh Hi Exiting.
      apply (capInv_keep s); [done..| |]; unfold live in *; cbn in *; lia.
    + destruct Hinv as [Hfl _]. split; [done|]. done.
  - weigh Hi (Storing (wrapErr (resErr s))).
    apply (capInv_keep s); [done..| |]; unfold live in *; cbn in *; lia.
  - weigh Hi Exiting.
    apply (capInv_keep s); [done..| |]; unfold live in *; cbn in *; lia.
  - weigh Hi Finished.
    destruct Hinv as [Hfl Hinv'].
    destruct (Hinv' Hcr) as (Hc & H10 & Hd).
    assert (count s ≤ 10)%Z by (destruct (adding (pc s)); lia).
    apply (capInv_keep s); [done..| |].
    + cbn [count setCount]. rewrite AddInt32_small by lia.
      unfold live in *; cbn in *; lia.
    + unfold live in *; cbn in *; lia.
  - done.
Qed.

Lemma capInv_run env name sched s : capInv s → capInv (run env name sched s).
Proof.
  revert s. induction sched as [|t sched IH]; intros s Hinv; [done|].
  cbn [run foldl]. apply IH. destruct t; cbn [step].
  - by apply capInv_mainStep.
  - by apply capInv_goStep.
Qed.

(** C9: under every schedule of the coordinator and its goroutines, at no
    state are more than 10 calls of [DeleteObjects] in flight: [count] is
    the number of goroutines that have not yet run their deferred decrement
    (plus the one the coordinator has counted and is about to start), and
    it never exceeds 10.  Once [DeleteBucketContents] has returned, every
    goroutine it started has finished. *)
Theorem concurrency_cap env name listing err st sched :
  let s := run env name sched (enter listing err st) in
  inFlight s ≤ 10 ∧
  (crashed (pc s) = false →
   count s = Z.of_nat (live s + pending (pc s)) ∧ (count s ≤ 10)%Z) ∧
  (∀ r, pc s = Returned r → Forall (λ g, gPhase g = Finished) (gos s)) ∧
  (∀ fuel st0 s', DeleteBucketContents env name fuel sched st0 = Some s' →
     inFlight s' ≤ 10 ∧
     (∀ r, pc s' = Returned r → Forall (λ g, gPhase g = Finished) (gos s'))).
Proof.
  assert (∀ s, capInv s →
            inFlight s ≤ 10 ∧
            (crashed (pc s) = false →
             count s = Z.of_nat (live s + pending (pc s)) ∧ (count s ≤ 10)%Z) ∧
            (∀ r, pc s = Returned r → Forall (λ g, gPhase g = Finished) (gos s)))
    as Hcap.
  { intros s [Hfl Hinv]. split; [done|]. split.
    - intros Hcr. destruct (Hinv Hcr) as (Hc & H10 & _). split; [done|].
      destruct (adding (pc s)); lia.
    - intros r Hr. rewrite Hr in Hinv. destruct Hinv as (_ & _ & Hd); [done|].
      specialize (Hd eq_refl). apply filter_length_zero in Hd.
      eapply Forall_impl; [exact Hd|]. intros g Hg. cbn in Hg.
      by destruct (decide (gPhase g = Finished)). }
  intros s. destruct (Hcap s) as (H1 & H2 & H3).
  { apply capInv_run, capInv_enter. }
  split; [done|]. split; [done|]. split; [done|].
  intros fuel st0 s' Hs'. unfold DeleteBucketContents in Hs'.
  destruct (ListObjects env fuel name st0) as [[[l e]|] st1|msg]; simplify_eq.
  - destruct (Hcap (run env name sched (enter l e st1))) as (? & _ & ?); [|done].
    apply capInv_run, capInv_enter.
  - split; [cbn; lia|done].
Qed.

(** ** What [resErr] can hold *)

Lemma wrapErr_chain e : chain e → ∃ k, wrapErr e = nilChain k.
Proof.
  intros [->|[k ->]].
  - by exists 0.
  - by exists (S k).
Qed.

Lemma chainInv_enter listing st : chainInv (enter listing None st).
Proof.
  split; [by left|]. split; [by constructor|].
  intros r. unfold enter. cbn. case_decide; [|done].
  intros [= <-]. by left.
Qed.

Lemma chainInv_mainStep s : chainInv s → chainInv (mainStep s).
Proof.
  intros (Herr & Hgos & Hret). unfold mainStep.
  destruct (pc s) eqn:Hpc; try done.
  - case_decide; done.
  - destruct (10 <=? count s)%Z; [|done]. split; [done|]. by rewrite Hpc.
  - split; [done|]. split; [|done]. cbn. apply Forall_app. split; [done|].
    by repeat constructor.
  - destruct (0 <? count s)%Z; [|done]. split; [done|]. by rewrite Hpc.
  - split; [done|]. split; [done|]. cbn. by intros r [= <-].
  - split; [done|]. by rewrite Hpc.
  - split; [done|]. by rewrite Hpc.
Qed.

Lemma chainInv_goStep env name i s : chainInv s → chainInv (goStep env name i s).
Proof.
  intros (Herr & Hgos & Hret). rewrite goStep_unfold.
  destruct (crashed (pc s)); [done|].
  destruct (gos s !! i) as [g|] eqn:Hi; [|done].
  pose proof (Forall_lookup_1 _ _ _ _ Hgos Hi) as Hg.
  destruct (gPhase g) eqn:Hph.
  - split; [done|]. split; [|done]. by apply Forall_insert.
  - destruct (DeleteObjects env name (gObjects g) (shared s)) as [[err|] st|msg].
    + split; [done|]. split; [|done]. by apply Forall_insert.
    + split; [done|]. split; [|done]. by apply Forall_insert.
    + split; [done|]. split; [done|]. done.
  - split; [done|]. split; [|done]. apply Forall_insert; [done|].
    cbn. intros msg [= <-]. by apply wrapErr_chain.
  - split; [|split; [|done]].
    + right. cbn. destruct (Hg msg Hph) as [k ->]. by exists k.
    + by apply Forall_insert.
  - split; [done|]. split; [|done]. by apply Forall_insert.
  - done.
Qed.

Lemma chainInv_run env name sched s : chainInv s → chainInv (run env name sched s).
Proof.
  revert s. induction sched as [|t sched IH]; intros s Hinv; [done|].
  cbn [run foldl]. apply IH. destruct t; cbn [step].
  - by apply chainInv_mainStep.
  - by apply chainInv_goStep.
Qed.

(** C1, as the code has it: whatever the batches' errors and whatever the
    order in which the goroutines run, the error [DeleteBucketContents]
    returns after a successful listing is nil or the wrapping prefix around
    the rendering of a nil error, nested once per overwrite.  The goroutine
    formats [resErr], not the [err] that [DeleteObjects] returned, so the
    failing batch's error never reaches the caller. *)
Theorem bulk_delete_error_ignores_batch_errors env name listing st sched r :
  pc (run env name sched (enter listing None st)) = Returned r →
  r = None ∨ ∃ k, r = Some (nilChain k).
Proof.
  intros Hr.
  destruct (chainInv_run env name sched (enter listing None st)) as (_ & _ & Hret).
  { apply chainInv_enter. }
  by apply Hret.
Qed.

(** An empty bucket: no goroutine is started and nil is returned. *)
Lemma empty_bucket_is_a_noop env name st sched :
  pc (run env name sched (enter [] None st)) = Returned None ∧
  gos (run env name sched (enter [] None st)) = [].
Proof.
  assert (∀ s, pc s = Returned None → gos s = [] →
               pc (run env name sched s) = Returned None ∧
               gos (run env name sched s) = []) as Hstay.
  { induction sched as [|t sched IH]; intros s Hpc Hgos; [done|].
    cbn [run foldl]. apply IH; destruct t; cbn [step]; unfold mainStep, goStep;
      rewrite ?Hpc, ?Hgos; done. }
  by apply Hstay.
Qed.

(** ** The token manager *)

(** C10: [NewClient] fails exactly when the API key or the instance id is
    empty.  It leaves the world as it found it (no request, no token
    exchange), and the client it returns has an empty token, the zero
    expiry and no endpoint cache. *)
Theorem NewClient_spec apikey id s :
  ∃ client err,
    NewClient apikey id s = Done (client, err) s ∧
    (err ≠ None ↔ apikey = EmptyString ∨ id = EmptyString) ∧
    (err = None →
     ∃ c, client = Some c ∧ Token c = EmptyString ∧ Expires c = Time_zero ∧
          APIKey c = apikey ∧ ID c = id ∧ Endpoints c = None).
Proof.
  unfold NewClient. repeat case_decide; eexists _, _; (split; [reflexivity|]).
  - split; [split; eauto|done].
  - split; [split; eauto|done].
  - split; [|eauto 10]. split; [done|]. by intros [?|?].
Qed.

Lemma Refresh_returns env s :
  ∃ err s',
    Refresh env s = Done err s' ∧
    (Time_Before (Time_Add (time_Now env (wTicks s.2)) refreshTime) (Expires s.1) = true →
     err = None ∧ s'.1 = s.1 ∧ wLog s'.2 = wLog s.2) ∧
    (err ≠ None → s'.1 = s.1) ∧
    (exchangeFails env s → err ≠ None) ∧
    (err = None →
     Time_Before (Time_Add (time_Now env (wTicks s.2)) refreshTime) (Expires s.1) = false →
     ∃ code status body data,
       http_Do env (wLog s.2) (tokenRequest env s.1) = Responded code status body ∧
       json_TokenData env body = Ok data ∧ ErrorMessage data = EmptyString ∧
       s'.1 = setToken s.1 (Access_token data) (Time_Unix (Expiration data) 0)).
Proof.
  unfold Refresh, exchangeFails. run_M.
  destruct (Time_Before _ _) eqn:Hfresh.
  { eexists _, _. split; [reflexivity|]. cbn. repeat split; try done. by intros [? _]. }
  destruct (http_NewRequest env "POST" (IAMEndpoint s.1)) as [e|] eqn:Hreq.
  { eexists _, _. split; [reflexivity|]. cbn. repeat split; done. }
  run_M.
  destruct (http_Do env (wLog s.2) (tokenRequest env s.1)) as [e|e|code status body] eqn:Hdo.
  1,2: eexists _, _; (split; [reflexivity|]); cbn; repeat split; done.
  destruct (json_TokenData env body) as [data|e] eqn:Hjson.
  2: eexists _, _; (split; [reflexivity|]); cbn; repeat split; done.
  case_decide as Hmsg.
  { eexists _, _. split; [reflexivity|]. cbn. repeat split; done. }
  eexists _, _. split; [reflexivity|]. cbn.
  split; [done|]. split; [done|]. split.
  - intros [_ [?|?]]; done.
  - intros _ _. by exists code, status, body, data.
Qed.

(** C7: when the stored expiry lies more than [refreshTime] (five minutes)
    after the instant [Refresh] reads from the clock, [Refresh] returns nil,
    makes no request and leaves the client, token and expiry included, as
    it was. *)
Theorem Refresh_fresh env s :
  (time_Now env (wTicks s.2) + refreshTime < Expires s.1)%Z →
  ∃ s', Refresh env s = Done None s' ∧ s'.1 = s.1 ∧ wLog s'.2 = wLog s.2.
Proof.
  intros Hlt. destruct (Refresh_returns env s) as (err & s' & Hr & Hfresh & _).
  destruct Hfresh as (-> & Hc & Hl).
  { unfold Time_Before, Time_Add. by apply Z.ltb_lt. }
  by exists s'.
Qed.


(** ** The transport *)

Lemma Refresh_log env s err s1 :
  Refresh env s = Done err s1 →
  wLog s1.2 = wLog s.2 ∨ wLog s1.2 = wLog s.2 ++ [tokenRequest env s.1].
Proof.
  unfold Refresh. run_M.
  destruct (Time_Before _ _); [intros [= <- <-]; by left|].
  destruct (http_NewRequest env "POST" (IAMEndpoint s.1)); [intros [= <- <-]; by left|].
  run_M.
  destruct (http_Do env (wLog s.2) (tokenRequest env s.1)) as [e|e|code status body];
    try (intros [= <- <-]; by right).
  destruct (json_TokenData env body) as [data|e]; [|intros [= <- <-]; by right].
  case_decide; intros [= <- <-]; by right.
Qed.

Lemma doHTTP_run env method path body num headers s err s1 :
  Refresh env s = Done err s1 →
  http_NewRequest env method path = None →
  15 ≤ String.length ("Bearer " +:+ Token s1.1) →
  ((1 < num)%Z → 15 ≤ String.length (ID s1.1)) →
  let req := requestOf env method path body num headers s1 in
  doHTTP env method path body num headers s =
  Done (answerOf (http_Do env (wLog s1.2) req))
       (s1.1, mkWorld (wTicks s1.2) (S (wRanges s1.2)) (wLog s1.2 ++ [req])
                      (pkgEndpoints s1.2)).
Proof.
  intros Hr Hreq Htok Hid req. unfold doHTTP.
  cbv beta iota delta [mbind M_bind]. rewrite Hr, Hreq.
  run_M. unfold sliceTo.
  destruct (15 <=? String.length ("Bearer " +:+ Token s1.1)) eqn:Hlen;
    [|apply Nat.leb_gt in Hlen; lia].
  destruct (1 <? num)%Z eqn:Hnum.
  - destruct (15 <=? String.length (ID s1.1)) eqn:Hlen';
      [|apply Nat.leb_gt in Hlen'; apply Z.ltb_lt in Hnum; specialize (Hid Hnum); lia].
    run_M. subst req. unfold requestOf. rewrite Hnum.
    destruct (http_Do _ _ _) as [e|e|code status rbody]; try done.
    cbn [answerOf]. by case_decide.
  - run_M. subst req. unfold requestOf. rewrite Hnum.
    destruct (http_Do _ _ _) as [e|e|code status rbody]; try done.
    cbn [answerOf]. by case_decide.
Qed.


(** C3, as the code has it: [doHTTP] drops the result of [client.Refresh()].
    When the refresh fails and the request itself is answered with a 2xx
    status, [doHTTP] returns the answer and a nil error; the request went
    out under the token that could not be refreshed. *)
Theorem doHTTP_swallows_refresh_error env method path body headers s err s1
    code status rbody :
  Refresh env s = Done (Some err) s1 →
  http_NewRequest env method path = None →
  15 ≤ String.length ("Bearer " +:+ Token s.1) →
  http_Do env (wLog s1.2) (requestOf env method path body 1 headers s1)
    = Responded code status rbody →
  (code `quot` 100 = 2)%Z →
  ∃ s2, doHTTP env method path body 1 headers s = Done (rbody, None) s2 ∧
        Token s2.1 = Token s.1 ∧
        wLog s2.2 = wLog s1.2 ++ [requestOf env method path body 1 headers s1] ∧
        ("Authorization", "Bearer " +:+ Token s.1)
          ∈ rHeader (requestOf env method path body 1 headers s1).
Proof.
  intros Hr Hreq Htok Hdo Hcode.
  destruct (Refresh_returns env s) as (err' & s1' & Hr' & _ & Hsame & _).
  rewrite Hr in Hr'. injection Hr' as <- <-.
  assert (s1.1 = s.1) as Hc by (by apply Hsame).
  eexists. split.
  - rewrite (doHTTP_run env method path body 1 headers s (Some err) s1); try done.
    + rewrite Hdo. cbn [answerOf]. rewrite decide_False; [reflexivity|]. by intros [].
    + by rewrite Hc.
  - cbn [fst snd wLog]. rewrite Hc. split; [done|]. split; [done|].
    unfold requestOf. cbn [rHeader]. rewrite Hc. apply elem_of_cons. by left.
Qed.


(** ** The multi-object delete *)

Lemma append_nil_r s : s +:+ EmptyString = s.
Proof.
  induction s as [|c s IH]; [done|].
  change (String c (s +:+ EmptyString) = String c s). by rewrite IH.
Qed.

Lemma append_assoc s t u : (s +:+ t) +:+ u = s +:+ t +:+ u.
Proof.
  induction s as [|c s IH]; [done|].
  change (String c ((s +:+ t) +:+ u) = String c (s +:+ t +:+ u)). by rewrite IH.
Qed.

Lemma concat_cons s l :
  String.concat EmptyString (s :: l) = s +:+ String.concat EmptyString l.
Proof.
  destruct l as [|t l].
  - change (s = s +:+ EmptyString). by rewrite append_nil_r.
  - reflexivity.
Qed.

Lemma foldl_objectElement acc names :
  foldl (λ body name, body +:+ objectElement name) acc names =
  acc +:+ String.concat EmptyString (objectElement <$> names).
Proof.
  revert acc. induction names as [|n names IH]; intros acc.
  - cbn. by rewrite append_nil_r.
  - cbn [foldl]. rewrite IH, fmap_cons, concat_cons. by rewrite append_assoc.
Qed.

Lemma deleteBody_concat names :
  deleteBody names =
  "<Delete>" +:+ String.concat EmptyString (objectElement <$> names) +:+ "</Delete>".
Proof. unfold deleteBody. by rewrite foldl_objectElement, append_assoc. Qed.



(** ** The endpoint cache *)

Lemma Refresh_endpoints env s err s' :
  Refresh env s = Done err s' → Endpoints s'.1 = Endpoints s.1.
Proof.
  intros Hr.
  destruct (Refresh_returns env s) as (err' & s1 & Hr' & Hfresh & Hsame & _ & Hok).
  rewrite Hr in Hr'. injection Hr' as <- <-.
  destruct err as [e|]; [by rewrite Hsame|].
  destruct (Time_Before _ _) eqn:Hb.
  - destruct Hfresh as (_ & -> & _); done.
  - destruct Hok as (? & ? & ? & ? & _ & _ & _ & ->); done.
Qed.

Lemma doHTTP_endpoints env method path body num headers s r s' :
  doHTTP env method path body num headers s = Done r s' →
  Endpoints s'.1 = Endpoints s.1.
Proof.
  unfold doHTTP. cbv beta iota delta [mbind M_bind].
  destruct (Refresh env s) as [e0 s1|] eqn:Hr; [|done].
  rewrite <- (Refresh_endpoints _ _ _ _ Hr).
  destruct (http_NewRequest env method path); [by intros [= <- <-]|].
  run_M. destruct (sliceTo _ 15); [|done].
  destruct (1 <? num)%Z.
  - destruct (sliceTo (ID s1.1) 15); [|done]. run_M.
    destruct (http_Do _ _ _); try by intros [= <- <-].
    case_decide; by intros [= <- <-].
  - run_M. destruct (http_Do _ _ _); try by intros [= <- <-].
    case_decide; by intros [= <- <-].
Qed.

Lemma ListBuckets_endpoints env s r s' :
  ListBuckets env s = Done r s' → Endpoints s'.1 = Endpoints s.1.
Proof.
  unfold ListBuckets. cbv beta iota delta [mbind M_bind].
  destruct (doHTTP _ _ _ _ _ _ _) as [[body e] s1|] eqn:Hdo; [|done].
  rewrite <- (doHTTP_endpoints _ _ _ _ _ _ _ _ _ Hdo).
  destruct e; [by intros [= <- <-]|].
  destruct (xml_Buckets env body); by intros [= <- <-].
Qed.

Lemma GetCOSEndpoints_client env s r s' :
  GetCOSEndpoints env s = Done r s' → s'.1 = s.1.
Proof.
  unfold GetCOSEndpoints. run_M.
  destruct (pkgEndpoints s.2); [by intros [= <- <-]|].
  destruct (http_NewRequest env _ _); [by intros [= <- <-]|].
  run_M. destruct (http_Do _ _ _); try by intros [= <- <-].
  destruct (json_Endpoints env body).2; by intros [= <- <-].
Qed.

Lemma locate_client env endpoints loc s r s' :
  locate env endpoints loc s = Done r s' → s'.1 = s.1.
Proof.
  unfold locate.
  destruct (Split loc dash) as [|p0 [|p1 [|p2 [|p3 rest]]]]; try by intros [= <- <-].
  destruct endpoints; [|done]. run_M. by intros [= <- <-].
Qed.

Lemma foundBucket_cache env endpoints name bucket s url s' :
  foundBucket env endpoints name bucket s = Done (url, None) s' →
  ∃ name' host, url = "https://" +:+ host ∧
    Endpoints s'.1 = Some (<[name' := url]> (default ∅ (Endpoints s.1))).
Proof.
  unfold foundBucket. cbv beta iota delta [mbind M_bind].
  destruct (locate env endpoints _ s) as [[[daType reg]|msg] s1|] eqn:Hloc;
    [|by intros [= <- <-]|done].
  rewrite <- (locate_client _ _ _ _ _ _ Hloc).
  destruct endpoints as [e|]; [|done]. run_M.
  destruct (mapOrder env _ _ _) as [|[name' host] rest]; [done|].
  intros [= <- <-]. by exists name', host.
Qed.

Lemma bucketLoop_cache env endpoints name buckets s url s' :
  bucketLoop env endpoints name buckets s = Done (url, None) s' →
  ∃ name' host, url = "https://" +:+ host ∧
    Endpoints s'.1 = Some (<[name' := url]> (default ∅ (Endpoints s.1))).
Proof.
  induction buckets as [|b rest IH]; cbn [bucketLoop]; [done|].
  case_decide; [done|]. apply foundBucket_cache.
Qed.

(** C2, as the code has it: a successful resolution that missed the cache
    stores the URL under the name of the endpoint the inner [range]
    yielded, not under the bucket name.  Unless the two names coincide the
    bucket is still uncached afterwards, so the next resolution of the same
    bucket lists the buckets again. *)
Theorem resolution_caches_under_endpoint_name env name s url s1 :
  cached s.1 name = None →
  GetEndpointForBucket env name s = Done (url, None) s1 →
  ∃ name' host,
    url = "https://" +:+ host ∧
    Endpoints s1.1 = Some (<[name' := url]> (default ∅ (Endpoints s.1))) ∧
    cached s1.1 name' = Some url ∧
    (name' ≠ name → cached s1.1 name = None).
Proof.
  intros Hmiss. unfold GetEndpointForBucket.
  cbv beta iota delta [mbind M_bind getClient]. rewrite Hmiss.
  destruct (GetCOSEndpoints env s) as [[endpoints e] s0|] eqn:Hcos; [|done].
  pose proof (GetCOSEndpoints_client _ _ _ _ Hcos) as Hc0.
  destruct e; [done|].
  destruct (ListBuckets env s0) as [[buckets e] s0'|] eqn:Hlist; [|done].
  pose proof (ListBuckets_endpoints _ _ _ _ Hlist) as Hc1.
  destruct e; [done|].
  intros Hloop. destruct (bucketLoop_cache _ _ _ _ _ _ _ Hloop) as (name' & host & -> & Hend).
  rewrite Hc1, Hc0 in Hend.
  exists name', host. split; [done|]. split; [done|].
  unfold cached in *. rewrite Hend. split.
  - apply lookup_insert_eq.
  - intros Hne. rewrite lookup_insert_ne by done.
    destruct (Endpoints s.1); [done|]. apply lookup_empty.
Qed.


(** ** The batches the coordinator starts *)

Lemma remaining_end (listing : ObjectList) : remaining listing (length listing) = [].
Proof. unfold remaining. by rewrite batchLoop_done. Qed.

Lemma batchLoop_fuel f1 f2 (listing : ObjectList) e r1 r2 :
  batchLoop f1 listing e e = Some r1 → batchLoop f2 listing e e = Some r2 → r1 = r2.
Proof.
  revert f2 e r1 r2. induction f1 as [|f1 IH]; intros f2 e r1 r2 H1 H2.
  - cbn [batchLoop] in H1. case_decide as He; [|done]. subst e.
    rewrite batchLoop_done in H2. congruence.
  - destruct (decide (e = length listing)) as [->|Hne].
    + rewrite batchLoop_done in H1, H2. congruence.
    + destruct f2 as [|f2]; [cbn [batchLoop] in H2; by rewrite decide_False in H2|].
      rewrite batchLoop_step in H1, H2 by done.
      destruct (batchLoop f1 listing _ _) as [t1|] eqn:Ht1; [|done].
      destruct (batchLoop f2 listing _ _) as [t2|] eqn:Ht2; [|done].
      cbn in H1, H2. simplify_eq. f_equal. by eapply IH.
Qed.

Lemma remaining_step (listing : ObjectList) start :
  start < length listing →
  remaining listing start =
  batchObjects listing start (batchEnd start (length listing))
    :: remaining listing (batchEnd start (length listing)).
Proof.
  intros Hlt. unfold remaining.
  destruct (batchEnd_bounds start (length listing) Hlt) as [[Hlo Hhi] _].
  destruct (length listing - start) as [|fuel] eqn:Hfuel; [lia|].
  rewrite batchLoop_step by lia.
  destruct (batchLoop_total fuel listing (batchEnd start (length listing)))
    as (bs1 & Hbs1 & _); [lia..|].
  destruct (batchLoop_total (length listing - batchEnd start (length listing)) listing
              (batchEnd start (length listing)))
    as (bs2 & Hbs2 & _); [lia..|].
  rewrite Hbs1, Hbs2. cbn. f_equal. by eapply batchLoop_fuel.
Qed.

Lemma batchInv_enter listing st bs :
  listing ≠ [] → batches listing = Some bs → batchInv listing bs (enter listing None st).
Proof.
  intros Hne Hbs _. unfold enter. cbn.
  rewrite decide_False by (by destruct listing).
  cbn. repeat split; try done; try lia.
  - intros [?|?]; done.
  - unfold remaining. rewrite Nat.sub_0_r. unfold batches in Hbs. by rewrite Hbs.
Qed.

Lemma batchInv_mainStep listing bs s :
  batchInv listing bs s → batchInv listing bs (mainStep s).
Proof.
  intros Hinv. unfold mainStep.
  destruct (pc s) eqn:Hpc; try done.
  - destruct Hinv as (Hobjs & Hse & Hle & Hend & Hbs); [by rewrite Hpc|].
    rewrite Hpc in *. rewrite Hobjs. case_decide as Hne.
    + intros _. cbn.
      destruct (batchEnd_bounds (start s) (length listing)) as [[? ?] _]; [lia|].
      repeat split; try done; try lia.
      * intros [?|?]; done.
      * rewrite <- Hbs. cbn. f_equal.
        by rewrite (remaining_step listing (start s)) by lia.
    + intros _. cbn. repeat split; try done. intros _.
      destruct (decide (end_ s = length listing)); [lia|done].
  - destruct (10 <=? count s)%Z; [done|].
    intros _. destruct Hinv as (Hobjs & Hse & Hle & Hend & Hbs); [by rewrite Hpc|].
    rewrite Hpc in *. cbn. repeat split; try done. intros [?|?]; done.
  - intros _. destruct Hinv as (Hobjs & Hse & Hle & Hend & Hbs); [by rewrite Hpc|].
    rewrite Hpc in *. cbn. repeat split; try done. intros [?|?]; done.
  - intros _. destruct Hinv as (Hobjs & Hse & Hle & Hend & Hbs); [by rewrite Hpc|].
    rewrite Hpc in *. cbn. repeat split; try done.
    + intros [?|?]; done.
    + rewrite <- Hbs. rewrite fmap_app. cbn. by rewrite <- app_assoc.
  - destruct (0 <? count s)%Z; [done|].
    intros _. destruct Hinv as (Hobjs & Hse & Hle & Hend & Hbs); [by rewrite Hpc|].
    rewrite Hpc in *. cbn. repeat split; try done. intros _. apply Hend. by right.
  - intros _. destruct Hinv as (Hobjs & Hse & Hle & Hend & Hbs); [by rewrite Hpc|].
    rewrite Hpc in *. cbn. repeat split; try done.
    intros _. apply Hend. by left.
Qed.

Lemma gObjects_setPhase (s : Coord) i g ph :
  gos s !! i = Some g → gObjects <$> gos (setPhase s i g ph) = gObjects <$> gos s.
Proof.
  intros Hi. cbn. rewrite list_fmap_insert. cbn.
  apply list_insert_id. by rewrite list_lookup_fmap, Hi.
Qed.

Lemma batchInv_goStep env name listing bs i s :
  batchInv listing bs s → batchInv listing bs (goStep env name i s).
Proof.
  intros Hinv. rewrite goStep_unfold.
  destruct (crashed (pc s)) eqn:Hcr; [done|].
  destruct (gos s !! i) as [g|] eqn:Hi; [|done].
  destruct (Hinv Hcr) as (Hobjs & Hse & Hle & Hend & Hbs).
  assert (∀ s', pc s' = pc s → objs s' = objs s → start s' = start s →
                end_ s' = end_ s → gObjects <$> gos s' = gObjects <$> gos s →
                batchInv listing bs s') as Hkeep.
  { intros s' Hpc' Ho' Hs' He' Hg' _. rewrite Hpc', Ho', Hs', He', Hg'. done. }
  destruct (gPhase g).
  - apply Hkeep; try done. by apply gObjects_setPhase.
  - destruct (DeleteObjects env name (gObjects g) (shared s)) as [[err|] st|msg].
    + apply Hkeep; try done. by apply (gObjects_setPhase s).
    + apply Hkeep; try done. by apply (gObjects_setPhase s).
    + by intros ?.
  - apply Hkeep; try done. by apply gObjects_setPhase.
  - apply Hkeep; try done. by apply (gObjects_setPhase s).
  - apply Hkeep; try done. by apply (gObjects_setPhase s).
  - done.
Qed.

Lemma batchInv_run env name listing bs sched s :
  batchInv listing bs s → batchInv listing bs (run env name sched s).
Proof.
  revert s. induction sched as [|t sched IH]; intros s Hinv; [done|].
  cbn [run foldl]. apply IH. destruct t; cbn [step].
  - by apply batchInv_mainStep.
  - by apply batchInv_goStep.
Qed.

Lemma coordinator_starts_batches env name listing bs st sched r :
  listing ≠ [] → batches listing = Some bs →
  pc (run env name sched (enter listing None st)) = Returned r →
  gObjects <$> gos (run env name sched (enter listing None st)) = bs.
Proof.
  intros Hne Hbs Hret.
  destruct (batchInv_run env name listing bs sched (enter listing None st))
    as (_ & _ & _ & Hend & Hall).
  { by apply batchInv_enter. }
  { by rewrite Hret. }
  rewrite Hret in *. cbn in Hall. rewrite Hend in Hall by (by left).
  by rewrite remaining_end, app_nil_r in Hall.
Qed.


(** C5: for a non-empty listing the partitioning loop ends and yields
    batches which, concatenated, are the keys of the listing in order; each
    holds between 1 and 1000 keys; a listing of 2500 objects gives batches
    of 1000, 1000 and 500 keys; and once the coordinator has returned, the
    goroutines it started hold exactly these batches, in this order. *)
Theorem batches_partition (listing : ObjectList) :
  listing ≠ [] →
  ∃ bs, batches listing = Some bs ∧
        concat bs = Key <$> listing ∧
        Forall (λ b, 1 ≤ length b ≤ 1000) bs ∧
        (length listing = 2500 → length <$> bs = [1000; 1000; 500]) ∧
        (∀ env name st sched r,
           pc (run env name sched (enter listing None st)) = Returned r →
           gObjects <$> gos (run env name sched (enter listing None st)) = bs).
Proof.
  intros Hne.
  destruct (batchLoop_total (length listing) listing 0) as (bs & Hbs & Hcat & Hall);
    [lia..|].
  exists bs. split; [done|]. split; [done|]. split; [done|]. split.
  - intros Hlen. rewrite Hlen in Hbs.
    change 2500 with (S (S (S 2497))) in Hbs at 1.
    rewrite batchLoop_step in Hbs by (rewrite Hlen; done).
    rewrite Hlen in Hbs. change (batchEnd 0 2500) with 1000 in Hbs.
    rewrite batchLoop_step in Hbs by (rewrite Hlen; done).
    rewrite Hlen in Hbs. change (batchEnd 1000 2500) with 2000 in Hbs.
    rewrite batchLoop_step in Hbs by (rewrite Hlen; done).
    rewrite Hlen in Hbs. change (batchEnd 2000 2500) with 2500 in Hbs.
    rewrite <- Hlen in Hbs at 2 3. rewrite batchLoop_done in Hbs.
    injection Hbs as <-. cbn [fmap list_fmap].
    rewrite !batchObjects_length by lia. done.
  - intros env name st sched r. by apply coordinator_starts_batches.
Qed.

(** ** Runs of the concrete service *)

Import Scenario.

Lemma Scenario_EnvOK iamUp deleteStatus : EnvOK (env iamUp deleteStatus).
Proof. intros n A l. reflexivity. Qed.

(** One failing batch: [DeleteObjects] returns the service's 500, and the
    coordinator returns the prefix around the rendering of a nil error. *)
Lemma bulk_delete_error_ignores_batch_errors_witness :
  (∃ st, DeleteObjects (env true 500) "mybucket" ["a.txt"] (valid, world) =
         Done (Some ("DELETE/POST error(" +:+ deleteURL +:+
                     "): 500 Internal Server Error: <Error><Code>InternalError</Code></Error>"))
              st) ∧
  pc (run (env true 500) "mybucket" oneBatch (enter [object_a] None (valid, world))) =
    Returned (Some "Error deleting bucket contents: %!s(<nil>)") ∧
  (Some "Error deleting bucket contents: %!s(<nil>)" = None ∨
   ∃ k, Some "Error deleting bucket contents: %!s(<nil>)" = Some (nilChain k)).
Proof.
  split; [eexists; vm_compute; reflexivity|].
  split; [vm_compute; reflexivity|].
  apply (bulk_delete_error_ignores_batch_errors (env true 500) "mybucket" [object_a]
           (valid, world) oneBatch).
  vm_compute; reflexivity.
Defined.

(** The same from a new client, listing included. *)
Example bulk_delete_end_to_end :
  pc <$> DeleteBucketContents (env true 500) "mybucket" 1 oneBatch (fresh, world) =
  Some (Returned (Some "Error deleting bucket contents: %!s(<nil>)")).
Proof. vm_compute. reflexivity. Qed.

(** Resolving [mybucket] twice: the first resolution caches the URL under
    [us-geo], the second one lists the buckets again. *)
Lemma resolution_caches_under_endpoint_name_witness :
  ∃ s1 s2,
    GetEndpointForBucket (env true 200) "mybucket" (fresh, world) =
      Done ("https://" +:+ host, None) s1 ∧
    cached s1.1 "mybucket" = None ∧
    cached s1.1 "us-geo" = Some ("https://" +:+ host) ∧
    GetEndpointForBucket (env true 200) "mybucket" s1 = Done ("https://" +:+ host, None) s2 ∧
    rURL <$> madeBetween s1 s2 = [listURL] ∧
    ∃ name' host',
      "https://" +:+ host = "https://" +:+ host' ∧
      Endpoints s1.1 = Some (<[name' := "https://" +:+ host]> (default ∅ (Endpoints fresh))) ∧
      cached s1.1 name' = Some ("https://" +:+ host) ∧
      (name' ≠ "mybucket" → cached s1.1 "mybucket" = None).
Proof.
  eexists _, _.
  split; [vm_compute; reflexivity|].
  split; [vm_compute; reflexivity|].
  split; [vm_compute; reflexivity|].
  split; [vm_compute; reflexivity|].
  split; [vm_compute; reflexivity|].
  apply (resolution_caches_under_endpoint_name (env true 200) "mybucket" (fresh, world)).
  - reflexivity.
  - vm_compute; reflexivity.
Defined.


(** The identity service is down and the token has run out: the listing
    request still goes out, under the old token, and succeeds. *)
Lemma doHTTP_swallows_refresh_error_witness :
  ∃ s1,
    Refresh (env false 200) (stale, world) =
      Done (Some "Error getting IAM token: dial tcp: lookup iam.cloud.ibm.com: no such host") s1 ∧
    ∃ s2,
      doHTTP (env false 200) "GET" objectsURL EmptyString 1 ∅ (stale, world) =
        Done (objectsBody, None) s2 ∧
      Token s2.1 = Token (stale, world).1 ∧
      wLog s2.2 = wLog s1.2 ++ [requestOf (env false 200) "GET" objectsURL EmptyString 1 ∅ s1] ∧
      ("Authorization", "Bearer " +:+ Token (stale, world).1)
        ∈ rHeader (requestOf (env false 200) "GET" objectsURL EmptyString 1 ∅ s1).
Proof.
  eexists. split; [vm_compute; reflexivity|].
  lazymatch goal with
  | |- ∃ s2, _ ∧ _ ∧ wLog _ = wLog ?s1.2 ++ _ ∧ _ =>
      apply (doHTTP_swallows_refresh_error (env false 200) "GET" objectsURL EmptyString ∅
               (stale, world)
               "Error getting IAM token: dial tcp: lookup iam.cloud.ibm.com: no such host"
               s1 200%Z "200 OK" objectsBody)
  end.
  - vm_compute; reflexivity.
  - reflexivity.
  - vm_compute. lia.
  - vm_compute; reflexivity.
  - reflexivity.
Defined.

(** [us-smart] in a topology without single-site regions. *)
Lemma locate_by_segments_witness :
  EnvOK (env true 200) ∧
  ∃ s', locate (env true 200) (Some topology) "us-smart" (valid, world) =
        Done (Ok ("cross-region", "us")) s'.
Proof.
  split; [apply Scenario_EnvOK|].
  destruct (locate_by_segments (env true 200) topology "us-smart" (valid, world)
              (Scenario_EnvOK true 200))
    as (_ & located & s' & Hloc & _ & _ & Hcross & _).
  exists s'. rewrite Hloc. f_equal.
  apply (Hcross "us" "smart"); [reflexivity|].
  apply not_elem_of_dom. vm_compute; reflexivity.
Defined.

(** The constraints of the comments in [GetEndpointForBucket], a
    single-site one, and three that are refused. *)
Example locate_examples :
  (∃ s', locate (env true 200) (Some sitesTopology) "us-smart" (valid, world)
         = Done (Ok ("cross-region", "us")) s') ∧
  (∃ s', locate (env true 200) (Some sitesTopology) "hkg02-standard" (valid, world)
         = Done (Ok ("single-site", "hkg02")) s') ∧
  (∃ s', locate (env true 200) (Some sitesTopology) "us-south-standard" (valid, world)
         = Done (Ok ("regional", "us-south")) s') ∧
  (∃ s', locate (env true 200) (Some sitesTopology) "standard" (valid, world)
         = Done (Err "Can't split loc: standard") s') ∧
  (∃ s', locate (env true 200) (Some sitesTopology) "eu-de-fra-standard" (valid, world)
         = Done (Err "Can't split loc: eu-de-fra-standard") s') ∧
  (∃ s', locate (env true 200) (Some sitesTopology) EmptyString (valid, world)
         = Done (Err "Can't split loc: ") s').
Proof. repeat split; eexists; vm_compute; reflexivity. Qed.

(** A listing of 2500 objects. *)
Lemma batches_partition_witness :
  manyObjects ≠ [] ∧
  ∃ bs, batches manyObjects = Some bs ∧
        concat bs = Key <$> manyObjects ∧
        Forall (λ b, 1 ≤ length b ≤ 1000) bs ∧
        (length manyObjects = 2500 → length <$> bs = [1000; 1000; 500]) ∧
        (∀ env name st sched r,
           pc (run env name sched (enter manyObjects None st)) = Returned r →
           gObjects <$> gos (run env name sched (enter manyObjects None st)) = bs).
Proof.
  assert (manyObjects ≠ []) as Hne by discriminate.
  split; [exact Hne|]. exact (batches_partition manyObjects Hne).
Defined.

(** A token good for another hour. *)
Lemma Refresh_fresh_witness :
  (time_Now (env true 200) (wTicks (valid, world).2) + refreshTime
   < Expires (valid, world).1)%Z ∧
  ∃ s', Refresh (env true 200) (valid, world) = Done None s' ∧
        s'.1 = (valid, world).1 ∧ wLog s'.2 = wLog (valid, world).2.
Proof.
  assert (time_Now (env true 200) (wTicks (valid, world).2) + refreshTime
          < Expires (valid, world).1)%Z as Hlt by (vm_compute; reflexivity).
  split; [exact Hlt|]. exact (Refresh_fresh (env true 200) (valid, world) Hlt).
Defined.



(** * More of the client *)

(** ** Failed batches *)

Lemma run_app env name sched1 sched2 s :
  run env name (sched1 ++ sched2) s = run env name sched2 (run env name sched1 s).
Proof. unfold run. by rewrite foldl_app. Qed.

Lemma live_zero_finished s g i :
  live s = 0 → gos s !! i = Some g → gPhase g = Finished.
Proof.
  intros Hlive Hi. apply filter_length_zero in Hlive.
  pose proof (Forall_lookup_1 _ _ _ _ Hlive Hi) as Hg. cbn in Hg.
  by destruct (decide (gPhase g = Finished)).
Qed.

Lemma failInv_mainStep s : capInv s → failInv s → failInv (mainStep s).
Proof.
  intros [_ Hcap] Hinv. unfold mainStep.
  destruct (pc s) eqn:Hpc; try done.
  - destruct Hinv as [Hfail _]; [by rewrite Hpc|].
    case_decide; intros _; (split; [done|by cbn]).
  - destruct (10 <=? count s)%Z; [done|].
    destruct Hinv as [Hfail _]; [by rewrite Hpc|]. intros _. split; [done|by cbn].
  - destruct Hinv as [Hfail _]; [by rewrite Hpc|]. intros _. split; [done|by cbn].
  - destruct Hinv as [Hfail _]; [by rewrite Hpc|]. intros _. split; [|by cbn].
    destruct Hfail as [?|(i & g & Hi & Hg)]; [by left|]. right.
    exists i, g. split; [|done]. cbn. by apply lookup_app_l_Some.
  - destruct (0 <? count s)%Z; [done|].
    destruct Hinv as [Hfail _]; [by rewrite Hpc|]. intros _. split; [done|by cbn].
  - destruct Hinv as [Hfail _]; [by rewrite Hpc|].
    destruct Hcap as (_ & _ & Hd); [done|].
    specialize (Hd eq_refl).
    assert (resErr s ≠ None) as Hres.
    { destruct Hfail as [?|(i & g & Hi & Hg)]; [done|].
      unfold hasFailed in Hg. by rewrite (live_zero_finished s g i Hd Hi) in Hg. }
    intros _. split; [by left|]. cbn. by intros r [= <-].
Qed.

Lemma failInv_goStep env name i s : failInv s → failInv (goStep env name i s).
Proof.
  intros Hinv. rewrite goStep_unfold.
  destruct (crashed (pc s)) eqn:Hcr; [done|].
  destruct (gos s !! i) as [g|] eqn:Hi; [|done].
  destruct (Hinv Hcr) as [Hfail Hret].
  assert (∀ ph, (hasFailed g → hasFailed (mkGoroutine (gObjects g) ph)) →
                failInv (setPhase s i g ph)) as Hphase.
  { intros ph Hph _. split; [|done].
    destruct Hfail as [?|(j & g' & Hj & Hg')]; [by left|]. right.
    destruct (decide (j = i)) as [->|Hne].
    - exists i, (mkGoroutine (gObjects g) ph). split.
      + cbn. apply list_lookup_insert_eq. by eapply lookup_lt_Some.
      + apply Hph. congruence.
    - exists j, g'. split; [|done]. cbn. by rewrite list_lookup_insert_ne. }
  destruct (gPhase g) eqn:Hph.
  - apply Hphase. unfold hasFailed. by rewrite Hph.
  - destruct (DeleteObjects env name (gObjects g) (shared s)) as [[err|] st|msg].
    + apply (Hphase (Failed err)). unfold hasFailed. by rewrite Hph.
    + apply (Hphase Exiting). unfold hasFailed. by rewrite Hph.
    + by intros ?.
  - apply Hphase. done.
  - intros _. split; [by left|done].
  - apply Hphase. unfold hasFailed. by rewrite Hph.
  - done.
Qed.

Lemma failInv_run env name sched s :
  capInv s → failInv s → failInv (run env name sched s).
Proof.
  revert s. induction sched as [|t sched IH]; intros s Hcap Hinv; [done|].
  cbn [run foldl]. destruct t; cbn [step]; apply IH.
  - by apply capInv_mainStep.
  - by apply failInv_mainStep.
  - by apply capInv_goStep.
  - by apply failInv_goStep.
Qed.

Lemma failInv_failed s i g err :
  capInv s → gos s !! i = Some g → gPhase g = Failed err → failInv s.
Proof.
  intros Hcap Hi Hph Hcr. split.
  - right. exists i, g. split; [done|]. unfold hasFailed. by rewrite Hph.
  - intros r' Hr'. destruct Hcap as [_ Hcap].
    destruct (Hcap Hcr) as (_ & _ & Hd). rewrite Hr' in Hd.
    pose proof (live_zero_finished s g i (Hd eq_refl) Hi). congruence.
Qed.

Lemma failed_run_returns env name sched s i g err r :
  capInv s → gos s !! i = Some g → gPhase g = Failed err →
  pc (run env name sched s) = Returned r → r ≠ None.
Proof.
  intros Hcap Hi Hph Hret.
  destruct (failInv_run env name sched s Hcap (failInv_failed s i g err Hcap Hi Hph))
    as [_ Hr]; [by rewrite Hret|].
  by apply Hr.
Qed.

(** Once the [DeleteObjects] of some batch has returned an error, the
    coordinator cannot return nil, whatever the schedule does from there. *)
Theorem failed_batch_is_reported env name listing st sched1 sched2 i g err r :
  gos (run env name sched1 (enter listing None st)) !! i = Some g →
  gPhase g = Failed err →
  pc (run env name (sched1 ++ sched2) (enter listing None st)) = Returned r →
  r ≠ None.
Proof.
  intros Hi Hph Hret. rewrite run_app in Hret.
  eapply failed_run_returns; [|exact Hi|exact Hph|exact Hret].
  apply capInv_run, capInv_enter.
Qed.

Lemma run_returned env name sched s r :
  pc s = Returned r → gos s = [] → run env name sched s = s.
Proof.
  revert s. induction sched as [|t sched IH]; intros s Hpc Hgos; [done|].
  cbn [run foldl].
  assert (step env name t s = s) as ->; [|by apply IH].
  destruct t; cbn [step]; unfold mainStep, goStep; by rewrite ?Hpc, ?Hgos.
Qed.

(** [DeleteBucketAll] after a batch has failed: it returns the error of
    [DeleteBucketContents] in the state the coordinator left, and
    [DeleteBucket] is not called. *)
Theorem DeleteBucketAll_after_failed_batch env name fuel st listing st' sched1 sched2
    i g err out :
  ListObjects env fuel name st = Done (Some (listing, None)) st' →
  gos (run env name sched1 (enter listing None st')) !! i = Some g →
  gPhase g = Failed err →
  DeleteBucketAll env name fuel (sched1 ++ sched2) st = Some out →
  (∃ msg, out = Panic msg) ∨
  ∃ e, out = Done (Some e)
               (shared (run env name (sched1 ++ sched2) (enter listing None st'))).
Proof.
  intros Hlist Hi Hph. unfold DeleteBucketAll, DeleteBucketContents. rewrite Hlist.
  destruct (pc (run env name (sched1 ++ sched2) (enter listing None st'))) as
    [| | | | | |[e|]|msg] eqn:Hpc; try done.
  - intros [= <-]. right. by exists e.
  - rewrite run_app in Hpc.
    by destruct (failed_run_returns env name sched2 _ i g err None
                   (capInv_run _ _ _ _ (capInv_enter _ _ _)) Hi Hph Hpc).
  - intros [= <-]. left. by exists msg.
Qed.

(** When the listing fails, [DeleteBucketContents] returns that error behind
    its prefix under every schedule; no goroutine is started and the state
    is the one the listing left. *)
Theorem listing_error_starts_nothing env name fuel st listing err st' sched :
  ListObjects env fuel name st = Done (Some (listing, Some err)) st' →
  ∃ c, DeleteBucketContents env name fuel sched st = Some c ∧
       pc c = Returned (Some ("Error getting bucket contents: " +:+ err)) ∧
       gos c = [] ∧ shared c = st'.
Proof.
  intros Hlist. unfold DeleteBucketContents. rewrite Hlist.
  eexists. split; [done|].
  by rewrite (run_returned env name sched (enter listing (Some err) st')
                (Some ("Error getting bucket contents: " +:+ err))).
Qed.

Lemma batchLoop_shape fuel (listing : ObjectList) start bs :
  start ≤ length listing →
  batchLoop fuel listing start start = Some bs →
  length bs = batchCount (length listing - start) ∧
  ∀ i b, bs !! i = Some b → S i < length bs → length b = 1000.
Proof.
  unfold batchCount.
  revert start bs. induction fuel as [|fuel IH]; intros start bs Hle Hbs.
  - cbn [batchLoop] in Hbs. case_decide as He; [|done]. simplify_eq.
    rewrite Nat.sub_diag. split; [done|]. by intros i b.
  - destruct (decide (start = length listing)) as [->|Hne].
    + rewrite batchLoop_done in Hbs. simplify_eq.
      rewrite Nat.sub_diag. split; [done|]. by intros i b.
    + rewrite batchLoop_step in Hbs by done.
      destruct (batchEnd_bounds start (length listing)) as [[Hlo Hhi] Hk]; [lia|].
      destruct (batchLoop fuel listing _ _) as [rest|] eqn:Hrest; [|done].
      cbn in Hbs. simplify_eq.
      destruct (IH _ _ Hhi Hrest) as [Hlen Hfull].
      assert (length (batchObjects listing start (batchEnd start (length listing)))
              = batchEnd start (length listing) - start) as Hb
        by (apply batchObjects_length; lia).
      unfold batchEnd in *.
      destruct (length listing <? start + 1000) eqn:Hc.
      * apply Nat.ltb_lt in Hc. rewrite Nat.sub_diag in Hlen.
        destruct rest; [|done]. cbn [length]. split.
        -- apply Nat.div_unique with (length listing - start - 1); lia.
        -- intros i b _ ?. lia.
      * apply Nat.ltb_ge in Hc. cbn [length]. split.
        -- rewrite Hlen.
           replace (length listing - start + 999)
             with (length listing - (start + 1000) + 999 + 1 * 1000) by lia.
           rewrite Nat.div_add by done. lia.
        -- intros [|i] b Hi Hlt; cbn in Hi; simplify_eq.
           ++ rewrite Hb. lia.
           ++ apply (Hfull i b Hi). lia.
Qed.

(** A listing of n keys is cut into the ceiling of n/1000 batches, and
    every batch but the last has exactly 1000 keys. *)
Theorem batches_are_full_but_last (listing : ObjectList) :
  ∃ bs, batches listing = Some bs ∧
        length bs = batchCount (length listing) ∧
        ∀ i b, bs !! i = Some b → S i < length bs → length b = 1000.
Proof.
  destruct (batchLoop_total (length listing) listing 0) as (bs & Hbs & _); [lia..|].
  exists bs. split; [done|].
  destruct (batchLoop_shape _ _ _ _ (Nat.le_0_l _) Hbs) as [Hlen Hfull].
  by rewrite Nat.sub_0_r in Hlen.
Qed.

(** ** The transport, continued *)

Lemma length_Bearer t : String.length ("Bearer " +:+ t) = 7 + String.length t.
Proof. reflexivity. Qed.

Lemma doHTTP_inv env method path body num headers s r err s2 :
  doHTTP env method path body num headers s = Done (r, err) s2 →
  http_NewRequest env method path = None →
  ∃ e0 s1,
    Refresh env s = Done e0 s1 ∧
    8 ≤ String.length (Token s1.1) ∧
    ((1 < num)%Z → 15 ≤ String.length (ID s1.1)) ∧
    (r, err) = answerOf (http_Do env (wLog s1.2)
                           (requestOf env method path body num headers s1)) ∧
    s2 = (s1.1, mkWorld (wTicks s1.2) (S (wRanges s1.2))
                  (wLog s1.2 ++ [requestOf env method path body num headers s1])
                  (pkgEndpoints s1.2)).
Proof.
  intros Hdo Hreq.
  destruct (Refresh_returns env s) as (e0 & s1 & Hr & _).
  exists e0, s1. split; [done|].
  assert (15 ≤ String.length ("Bearer " +:+ Token s1.1) ∧
          ((1 < num)%Z → 15 ≤ String.length (ID s1.1))) as [Htok Hid].
  { revert Hdo. unfold doHTTP. cbv beta iota delta [mbind M_bind]. rewrite Hr, Hreq.
    run_M. unfold sliceTo.
    destruct (15 <=? String.length ("Bearer " +:+ Token s1.1)) eqn:Hlen; [|done].
    apply Nat.leb_le in Hlen. intros Hdo. split; [done|]. intros Hnum.
    apply Z.ltb_lt in Hnum. rewrite Hnum in Hdo.
    destruct (15 <=? String.length (ID s1.1)) eqn:Hlen'; [|done].
    by apply Nat.leb_le. }
  rewrite (doHTTP_run env method path body num headers s e0 s1 Hr Hreq Htok Hid) in Hdo.
  injection Hdo as Ha Hs. rewrite length_Bearer in Htok.
  split; [lia|]. split; [done|]. by rewrite Ha, Hs.
Qed.

Lemma quot_100_is_2 code : (code `quot` 100 = 2 ↔ 200 ≤ code ≤ 299)%Z.
Proof.
  split.
  - intros Hq. pose proof (Z.quot_rem' code 100) as Heq.
    pose proof (Z.rem_bound_abs code 100 ltac:(done)) as Habs.
    destruct (Z.le_gt_cases 0 code) as [Hpos|Hneg].
    + pose proof (Z.rem_nonneg code 100 ltac:(done) Hpos). lia.
    + pose proof (Z.rem_nonpos code 100 ltac:(done) ltac:(lia)). lia.
  - intros Hc. rewrite Z.quot_div_nonneg by lia.
    symmetry. apply Z.div_unique with (code - 200)%Z; lia.
Qed.

Lemma answerOf_ok res r err :
  (r, err) = answerOf res →
  (err = None ↔
   ∃ code status, res = Responded code status r ∧ (200 ≤ code ≤ 299)%Z) ∧
  (err ≠ None → r = EmptyString).
Proof.
  intros Ha. destruct res as [e|e|code status rbody]; cbn [answerOf] in Ha.
  - injection Ha as -> ->. split; [|done]. split; [done|]. by intros (? & ? & ? & _).
  - injection Ha as -> ->. split; [|done]. split; [done|]. by intros (? & ? & ? & _).
  - case_decide as Hc.
    + injection Ha as -> ->. split; [|done]. split; [done|].
      intros (code' & status' & [= -> -> ->] & Hrange).
      by apply quot_100_is_2 in Hrange.
    + injection Ha as -> ->. split; [|done]. split; [|done].
      intros _. exists code, status. split; [done|]. by apply quot_100_is_2.
Qed.

(** [doHTTP] returns a nil error exactly when the service answered with a
    status code from 200 to 299, and the body it returns is then the
    answer's; with an error the body is empty. The request is appended to
    the log the refresh left. *)
Theorem doHTTP_ok_iff_2xx env method path body num headers s r err s2 :
  doHTTP env method path body num headers s = Done (r, err) s2 →
  http_NewRequest env method path = None →
  ∃ e0 s1,
    Refresh env s = Done e0 s1 ∧
    wLog s2.2 = wLog s1.2 ++ [requestOf env method path body num headers s1] ∧
    (err = None ↔
     ∃ code status,
       http_Do env (wLog s1.2) (requestOf env method path body num headers s1)
         = Responded code status r ∧ (200 ≤ code ≤ 299)%Z) ∧
    (err ≠ None → r = EmptyString).
Proof.
  intros Hdo Hreq.
  destruct (doHTTP_inv _ _ _ _ _ _ _ _ _ _ Hdo Hreq) as (e0 & s1 & Hr & _ & _ & Ha & ->).
  exists e0, s1. split; [done|]. split; [done|]. by apply answerOf_ok.
Qed.


(** [Refresh] always returns. It changes no field of the client but the
    token and its expiry, leaves the remembered topology alone, reads the
    clock once and sends nothing or the one token request. *)
Theorem Refresh_frame env s :
  ∃ err s',
    Refresh env s = Done err s' ∧
    sameKeys s.1 s'.1 ∧ Endpoints s'.1 = Endpoints s.1 ∧
    pkgEndpoints s'.2 = pkgEndpoints s.2 ∧
    wTicks s'.2 = S (wTicks s.2) ∧
    (madeBetween s s' = [] ∨ madeBetween s s' = [tokenRequest env s.1]).
Proof.
  unfold Refresh, madeBetween, sameKeys. run_M.
  destruct (Time_Before _ _).
  { eexists _, _. split; [reflexivity|]. cbn. rewrite drop_all. by repeat split; try left. }
  destruct (http_NewRequest env "POST" (IAMEndpoint s.1)).
  { eexists _, _. split; [reflexivity|]. cbn. rewrite drop_all. by repeat split; try left. }
  run_M.
  assert (drop (length (wLog s.2)) (wLog s.2 ++ [tokenRequest env s.1])
          = [tokenRequest env s.1]) as Hdrop by (by rewrite drop_app_length).
  destruct (http_Do env (wLog s.2) (tokenRequest env s.1)) as [e|e|code status body].
  1,2: eexists _, _; (split; [reflexivity|]); cbn; rewrite Hdrop;
       by repeat split; try right.
  destruct (json_TokenData env body) as [data|e].
  2: eexists _, _; (split; [reflexivity|]); cbn; rewrite Hdrop;
     by repeat split; try right.
  case_decide; eexists _, _; (split; [reflexivity|]); cbn; rewrite Hdrop;
    by repeat split; try right.
Qed.

(** ** Reading operations *)

Lemma tokenRequest_sameKeys env c c' :
  sameKeys c c' → tokenRequest env c' = tokenRequest env c.
Proof. intros (Hk & Hi & _). unfold tokenRequest. by rewrite Hk, Hi. Qed.

Lemma reads_refl env s : reads env s s.
Proof. split; [done|]. exists []. by rewrite app_nil_r. Qed.

Lemma reads_trans env s1 s2 s3 : reads env s1 s2 → reads env s2 s3 → reads env s1 s3.
Proof.
  intros [(K1 & I1 & D1) (l1 & H1 & F1)] [(K2 & I2 & D2) (l2 & H2 & F2)]. split.
  - repeat split; congruence.
  - exists (l1 ++ l2). split; [by rewrite H2, H1, app_assoc|].
    apply Forall_app. split; [done|].
    eapply Forall_impl; [exact F2|]. intros r [?| ->]; [by left|right].
    by apply tokenRequest_sameKeys.
Qed.

(** A step that sends nothing and keeps the client's keys. *)
Lemma reads_silent env (s s' : St) :
  sameKeys s.1 s'.1 → wLog s'.2 = wLog s.2 → reads env s s'.
Proof. intros Hk Hl. split; [done|]. exists []. by rewrite app_nil_r. Qed.

Lemma Refresh_keeps env s err s' :
  Refresh env s = Done err s' →
  sameKeys s.1 s'.1 ∧ pkgEndpoints s'.2 = pkgEndpoints s.2.
Proof.
  unfold Refresh, sameKeys. run_M.
  destruct (Time_Before _ _); [by intros [= <- <-]|].
  destruct (http_NewRequest env "POST" (IAMEndpoint s.1)); [by intros [= <- <-]|].
  run_M.
  destruct (http_Do env (wLog s.2) (tokenRequest env s.1)) as [e|e|code status body];
    try by intros [= <- <-].
  destruct (json_TokenData env body) as [data|e]; [|by intros [= <- <-]].
  case_decide; by intros [= <- <-].
Qed.

Lemma reads_Refresh env s err s' : Refresh env s = Done err s' → reads env s s'.
Proof.
  intros Hr. destruct (Refresh_keeps env s err s' Hr) as [Hk _]. split; [done|].
  destruct (Refresh_log env s err s' Hr) as [Hl|Hl]; rewrite Hl.
  - exists []. by rewrite app_nil_r.
  - exists [tokenRequest env s.1]. split; [done|]. apply Forall_singleton. by right.
Qed.

Lemma reads_doHTTP env path body num headers s r s' :
  doHTTP env "GET" path body num headers s = Done r s' → reads env s s'.
Proof.
  destruct r as [r err]. intros Hdo.
  destruct (http_NewRequest env "GET" path) as [e|] eqn:Hreq.
  - revert Hdo. unfold doHTTP. cbv beta iota delta [mbind M_bind].
    destruct (Refresh env s) as [e0 s1|] eqn:Hr; [|done]. rewrite Hreq.
    intros [= <- <- <-]. by eapply reads_Refresh.
  - destruct (doHTTP_inv _ _ _ _ _ _ _ _ _ _ Hdo Hreq) as (e0 & s1 & Hr & _ & _ & _ & ->).
    eapply reads_trans; [by eapply reads_Refresh|].
    split; [done|]. eexists. split; [reflexivity|]. apply Forall_singleton. by left.
Qed.

Lemma reads_GetCOSEndpoints env s r s' :
  GetCOSEndpoints env s = Done r s' → reads env s s'.
Proof.
  unfold GetCOSEndpoints. run_M.
  destruct (pkgEndpoints s.2); [intros [= <- <-]; apply reads_refl|].
  destruct (http_NewRequest env _ _); [intros [= <- <-]; apply reads_refl|].
  run_M.
  assert (∀ w : World, wLog w = wLog s.2 ++ [ {| rMethod := "GET";
            rURL := "https://control.cloud-object-storage.cloud.ibm.com/v2/endpoints";
            rBody := EmptyString; rHeader := [] |} ] → reads env s (s.1, w)) as Hone.
  { intros w Hw. split; [done|]. eexists. split; [exact Hw|]. apply Forall_singleton. by left. }
  destruct (http_Do _ _ _); try (intros [= <- <-]; by apply Hone).
  destruct (json_Endpoints env body).2; intros [= <- <-]; by apply Hone.
Qed.

Lemma reads_ListBuckets env s r s' : ListBuckets env s = Done r s' → reads env s s'.
Proof.
  unfold ListBuckets. cbv beta iota delta [mbind M_bind].
  destruct (doHTTP _ _ _ _ _ _ _) as [[body e] s1|] eqn:Hdo; [|done].
  pose proof (reads_doHTTP _ _ _ _ _ _ _ _ Hdo).
  destruct e; [by intros [= <- <-]|].
  destruct (xml_Buckets env body); by intros [= <- <-].
Qed.

Lemma locate_frame env endpoints loc s r s' :
  locate env endpoints loc s = Done r s' →
  s'.1 = s.1 ∧ wLog s'.2 = wLog s.2 ∧ pkgEndpoints s'.2 = pkgEndpoints s.2 ∧
  match r with
  | Ok (daType, _) => daType ∈ ["cross-region"; "single-site"; "regional"]
  | Err _ => True
  end.
Proof.
  unfold locate.
  destruct (Split loc dash) as [|p0 [|p1 [|p2 [|p3 rest]]]]; try by intros [= <- <-].
  - destruct endpoints; [|done]. run_M. intros [= <- <-]. repeat split; try done.
    generalize (mapOrder env (wRanges s.2) _
                  (map_to_list (default ∅ (ServiceEndpoints c !! "single-site")))).*1.
    intros names. induction names as [|n names IH]; cbn [siteLoop].
    + apply elem_of_cons. by left.
    + case_decide; [|done]. apply elem_of_cons. right. apply elem_of_cons. by left.
  - intros [= <- <-]. repeat split; try done.
    do 2 (apply elem_of_cons; right). apply elem_of_cons. by left.
Qed.

Lemma foundBucket_frame env endpoints name bucket s r s' :
  foundBucket env endpoints name bucket s = Done r s' →
  sameKeys s.1 s'.1 ∧ wLog s'.2 = wLog s.2 ∧ pkgEndpoints s'.2 = pkgEndpoints s.2 ∧
  (r.2 ≠ None → r.1 = EmptyString ∧ Endpoints s'.1 = Endpoints s.1).
Proof.
  unfold foundBucket. cbv beta iota delta [mbind M_bind].
  destruct (locate env endpoints _ s) as [[[daType reg]|msg] s1|] eqn:Hloc; [| |done].
  - destruct (locate_frame _ _ _ _ _ _ Hloc) as (Hc & Hl & Hp & _).
    rewrite <- Hc, <- Hl, <- Hp.
    destruct endpoints as [e|]; [|done]. run_M.
    destruct (mapOrder env _ _ _) as [|[name' host] rest]; by intros [= <- <-].
  - destruct (locate_frame _ _ _ _ _ _ Hloc) as (Hc & Hl & Hp & _).
    rewrite <- Hc, <- Hl, <- Hp. by intros [= <- <-].
Qed.

Lemma bucketLoop_frame env endpoints name buckets s r s' :
  bucketLoop env endpoints name buckets s = Done r s' →
  sameKeys s.1 s'.1 ∧ wLog s'.2 = wLog s.2 ∧ pkgEndpoints s'.2 = pkgEndpoints s.2 ∧
  (r.2 ≠ None → r.1 = EmptyString ∧ Endpoints s'.1 = Endpoints s.1).
Proof.
  induction buckets as [|b rest IH]; cbn [bucketLoop].
  - by intros [= <- <-].
  - case_decide; [done|]. apply foundBucket_frame.
Qed.

Lemma reads_GetEndpointForBucket env name s r s' :
  GetEndpointForBucket env name s = Done r s' → reads env s s'.
Proof.
  unfold GetEndpointForBucket. cbv beta iota delta [mbind M_bind getClient].
  destruct (cached s.1 name); [intros [= <- <-]; apply reads_refl|].
  destruct (GetCOSEndpoints env s) as [[endpoints e] s0|] eqn:Hcos; [|done].
  pose proof (reads_GetCOSEndpoints _ _ _ _ Hcos) as R0.
  destruct e; [by intros [= <- <-]|].
  destruct (ListBuckets env s0) as [[buckets e] s1|] eqn:Hlist; [|done].
  pose proof (reads_ListBuckets _ _ _ _ Hlist) as R1.
  destruct e; [intros [= <- <-]; by eapply reads_trans|].
  intros Hloop.
  destruct (bucketLoop_frame _ _ _ _ _ _ _ Hloop) as (Hk & Hl & _).
  eapply reads_trans; [by eapply reads_trans|]. by apply reads_silent.
Qed.

(** Resolving a bucket only reads: it sends GETs and token exchanges and
    keeps the client's keys. When it fails the URL is empty and the cache is
    as it was. *)
Theorem resolution_only_reads env name s url err s' :
  GetEndpointForBucket env name s = Done (url, err) s' →
  reads env s s' ∧
  (err ≠ None → url = EmptyString ∧ Endpoints s'.1 = Endpoints s.1).
Proof.
  intros Hres. split; [by eapply reads_GetEndpointForBucket|]. revert Hres.
  unfold GetEndpointForBucket. cbv beta iota delta [mbind M_bind getClient].
  destruct (cached s.1 name); [by intros [= <- <- <-]|].
  destruct (GetCOSEndpoints env s) as [[endpoints e] s0|] eqn:Hcos; [|done].
  pose proof (GetCOSEndpoints_client _ _ _ _ Hcos) as C0.
  destruct e; [intros [= <- <- <-]; by rewrite C0|].
  destruct (ListBuckets env s0) as [[buckets e] s1|] eqn:Hlist; [|done].
  pose proof (ListBuckets_endpoints _ _ _ _ Hlist) as C1.
  destruct e; [intros [= <- <- <-]; by rewrite C1, C0|].
  intros Hloop.
  destruct (bucketLoop_frame _ _ _ _ _ _ _ Hloop) as (_ & _ & _ & Herr).
  cbn in Herr. intros He. destruct (Herr He) as [-> ->]. by rewrite C1, C0.
Qed.

(** ** The topology *)

Lemma Refresh_pkg env s err s' :
  Refresh env s = Done err s' → pkgEndpoints s'.2 = pkgEndpoints s.2.
Proof.
  intros Hr. by destruct (Refresh_keeps env s err s' Hr).
Qed.

Lemma doHTTP_pkg env method path body num headers s r s' :
  doHTTP env method path body num headers s = Done r s' →
  pkgEndpoints s'.2 = pkgEndpoints s.2.
Proof.
  destruct r as [r err]. intros Hdo.
  destruct (http_NewRequest env method path) as [e|] eqn:Hreq.
  - revert Hdo. unfold doHTTP. cbv beta iota delta [mbind M_bind].
    destruct (Refresh env s) as [e0 s1|] eqn:Hr; [|done]. rewrite Hreq.
    intros [= <- <- <-]. by eapply Refresh_pkg.
  - destruct (doHTTP_inv _ _ _ _ _ _ _ _ _ _ Hdo Hreq) as (e0 & s1 & Hr & _ & _ & _ & ->).
    cbn. by eapply Refresh_pkg.
Qed.

Lemma ListBuckets_pkg env s r s' :
  ListBuckets env s = Done r s' → pkgEndpoints s'.2 = pkgEndpoints s.2.
Proof.
  unfold ListBuckets. cbv beta iota delta [mbind M_bind].
  destruct (doHTTP _ _ _ _ _ _ _) as [[body e] s1|] eqn:Hdo; [|done].
  rewrite <- (doHTTP_pkg _ _ _ _ _ _ _ _ _ Hdo).
  destruct e; [by intros [= <- <-]|].
  destruct (xml_Buckets env body); by intros [= <- <-].
Qed.

Lemma GetCOSEndpoints_pkg env s endpoints s' :
  GetCOSEndpoints env s = Done (endpoints, None) s' → pkgEndpoints s'.2 = endpoints.
Proof.
  unfold GetCOSEndpoints. run_M.
  destruct (pkgEndpoints s.2) eqn:Hp; [by intros [= <- <-]|].
  destruct (http_NewRequest env _ _); [done|]. run_M.
  destruct (http_Do _ _ _); try done.
  destruct (json_Endpoints env body) as [p e]. cbn.
  destruct e; [done|]. by intros [= <- <-].
Qed.

(** Once [GetCOSEndpoints] has succeeded the topology is remembered in the
    package variable: every later call, from any client, returns it and
    sends nothing. The call itself leaves the client alone and sends at most
    one request. *)
Theorem GetCOSEndpoints_remembers env s e s1 :
  GetCOSEndpoints env s = Done (Some e, None) s1 →
  s1.1 = s.1 ∧ length (madeBetween s s1) ≤ 1 ∧
  ∀ s2, pkgEndpoints s2.2 = pkgEndpoints s1.2 →
        GetCOSEndpoints env s2 = Done (Some e, None) s2.
Proof.
  intros Hcos.
  pose proof (GetCOSEndpoints_pkg _ _ _ _ Hcos) as Hp.
  split; [by eapply GetCOSEndpoints_client|]. split.
  - revert Hcos. unfold GetCOSEndpoints, madeBetween. run_M.
    destruct (pkgEndpoints s.2); [intros [= <- <-]; rewrite drop_all; cbn; lia|].
    destruct (http_NewRequest env _ _); [done|]. run_M.
    destruct (http_Do _ _ _); try done.
    destruct (json_Endpoints env body).2; [done|]. intros [= _ <-]. cbn.
    rewrite drop_app_length. cbn. lia.
  - intros s2 Hs2. unfold GetCOSEndpoints. run_M. by rewrite Hs2, Hp.
Qed.

Lemma foundBucket_public env endpoints name bucket s url s' :
  EnvOK env →
  foundBucket env endpoints name bucket s = Done (url, None) s' →
  ∃ e daType reg name' host,
    endpoints = Some e ∧
    daType ∈ ["cross-region"; "single-site"; "regional"] ∧
    publicNames e daType reg !! name' = Some host ∧
    url = "https://" +:+ host.
Proof.
  intros HO. unfold foundBucket. cbv beta iota delta [mbind M_bind].
  destruct (locate env endpoints _ s) as [[[daType reg]|msg] s1|] eqn:Hloc;
    [|by intros [= <- <-]|done].
  destruct (locate_frame _ _ _ _ _ _ Hloc) as (_ & _ & _ & Hty).
  destruct endpoints as [e|]; [|done]. run_M.
  destruct (mapOrder env _ _ _) as [|[name' host] rest] eqn:Horder; [done|].
  intros [= <- <-]. exists e, daType, reg, name', host. repeat split; try done.
  apply elem_of_map_to_list. rewrite <- (HO (wRanges s1.2) _ _), Horder.
  apply elem_of_cons. by left.
Qed.

Lemma bucketLoop_public env endpoints name buckets s url s' :
  EnvOK env →
  bucketLoop env endpoints name buckets s = Done (url, None) s' →
  (∃ bucket, bucket ∈ buckets ∧ bName bucket = name) ∧
  ∃ e daType reg name' host,
    endpoints = Some e ∧
    daType ∈ ["cross-region"; "single-site"; "regional"] ∧
    publicNames e daType reg !! name' = Some host ∧
    url = "https://" +:+ host.
Proof.
  intros HO. induction buckets as [|b rest IH]; cbn [bucketLoop]; [done|].
  case_decide as Hname.
  - intros Hl. destruct (IH Hl) as [(bucket & Hin & Hb) Hpub]. split; [|done].
    exists bucket. split; [|done]. apply elem_of_cons. by right.
  - intros Hf. split; [|by eapply foundBucket_public].
    exists b. split; [apply elem_of_cons; by left|].
    by destruct (decide (bName b = name)).
Qed.

(** A URL resolved on a cache miss is [https://] followed by a public
    endpoint of the remembered topology, under one of the three deployment
    types. *)
Theorem resolved_url_is_public_endpoint env name s url s' :
  EnvOK env →
  cached s.1 name = None →
  GetEndpointForBucket env name s = Done (url, None) s' →
  ∃ e daType reg name' host,
    pkgEndpoints s'.2 = Some e ∧
    daType ∈ ["cross-region"; "single-site"; "regional"] ∧
    publicNames e daType reg !! name' = Some host ∧
    url = "https://" +:+ host.
Proof.
  intros HO Hmiss. unfold GetEndpointForBucket.
  cbv beta iota delta [mbind M_bind getClient]. rewrite Hmiss.
  destruct (GetCOSEndpoints env s) as [[endpoints e] s0|] eqn:Hcos; [|done].
  destruct e; [done|].
  pose proof (GetCOSEndpoints_pkg _ _ _ _ Hcos) as P0.
  destruct (ListBuckets env s0) as [[buckets e] s1|] eqn:Hlist; [|done].
  pose proof (ListBuckets_pkg _ _ _ _ Hlist) as P1.
  destruct e; [done|]. intros Hloop.
  destruct (bucketLoop_frame _ _ _ _ _ _ _ Hloop) as (_ & _ & P2 & _).
  destruct (bucketLoop_public _ _ _ _ _ _ _ HO Hloop)
    as (_ & e & daType & reg & name' & host & -> & ? & ? & ?).
  exists e, daType, reg, name', host. repeat split; try done. congruence.
Qed.

(** A bucket that is not in the listing of the buckets is reported as not
    found, in the state the listing left: nothing is cached. *)
Theorem unknown_bucket_is_not_found env name s endpoints s0 buckets s1 :
  cached s.1 name = None →
  GetCOSEndpoints env s = Done (endpoints, None) s0 →
  ListBuckets env s0 = Done (Some buckets, None) s1 →
  Forall (λ b, bName b ≠ name) buckets →
  GetEndpointForBucket env name s =
    Done (EmptyString, Some ("Can't find bucket: " +:+ name)) s1.
Proof.
  intros Hmiss Hcos Hlist Hall. unfold GetEndpointForBucket.
  cbv beta iota delta [mbind M_bind getClient]. rewrite Hmiss, Hcos, Hlist.
  change (default [] (Some buckets)) with buckets. clear Hlist.
  induction Hall as [|b rest Hb _ IH]; cbn [bucketLoop]; [done|].
  by rewrite decide_True.
Qed.

(** ** Listing objects *)

Lemma listLoop_reads env fuel svcURL bucket contToken res s r s' :
  listLoop env fuel svcURL bucket contToken res s = Done r s' →
  reads env s s' ∧
  match r with
  | Some (l, Some _) => l = []
  | Some (l, None) => res `prefix_of` l
  | None => True
  end.
Proof.
  revert contToken res s. induction fuel as [|fuel IH]; intros contToken res s.
  - cbn [listLoop]. intros [= <- <-]. split; [apply reads_refl|done].
  - cbn [listLoop]. cbv beta iota zeta delta [mbind M_bind].
    destruct (doHTTP _ _ _ _ _ _ _) as [[body e] s1|] eqn:Hdo; [|done].
    pose proof (reads_doHTTP _ _ _ _ _ _ _ _ Hdo) as R1.
    destruct e; [by intros [= <- <-]|].
    destruct (xml_Objects env body) as [objects|e]; [|by intros [= <- <-]].
    destruct (decide (NextContinuationToken objects = EmptyString)).
    + intros [= <- <-]. split; [done|]. by apply prefix_app_r.
    + intros Hrest. destruct (IH _ _ _ Hrest) as [R2 Hr].
      split; [by eapply reads_trans|].
      destruct r as [[l [e|]]|]; try done.
      etrans; [|exact Hr]. by apply prefix_app_r.
Qed.

(** [ListObjects] only reads, and an error never comes with a part of the
    listing. *)
Theorem ListObjects_only_reads env fuel bucket s l err s' :
  ListObjects env fuel bucket s = Done (Some (l, err)) s' →
  reads env s s' ∧ (err ≠ None → l = []).
Proof.
  unfold ListObjects. cbv beta iota delta [mbind M_bind].
  destruct (GetEndpointForBucket env bucket s) as [[svcURL e] s1|] eqn:Hres; [|done].
  pose proof (reads_GetEndpointForBucket _ _ _ _ _ Hres) as R1.
  destruct e; [by intros [= <- <- <-]|].
  intros Hloop. destruct (listLoop_reads _ _ _ _ _ _ _ _ _ Hloop) as [R2 Hr].
  split; [by eapply reads_trans|]. by destruct err.
Qed.

(** ** Keys in the delete request *)

(** Keys go into the body of the delete request as they are: a key that
    holds the closing and the opening tags gives the body of two keys. *)
Theorem deleteBody_keys_verbatim a b rest :
  deleteBody ((a +:+ "</Key></Object><Object><Key>" +:+ b) :: rest) =
  deleteBody (a :: b :: rest).
Proof.
  rewrite !deleteBody_concat, !fmap_cons, !concat_cons. unfold objectElement.
  f_equal. rewrite !append_assoc. reflexivity.
Qed.

(** ** Operations on one bucket or object *)


(** ** Operations on one bucket or object, continued *)

Lemma requestOf_plain env method path body s1 :
  EnvOK env →
  requestOf env method path body 1 ∅ s1 =
  {| rMethod := method; rURL := path; rBody := body;
     rHeader := [("Authorization", "Bearer " +:+ Token s1.1)] |}.
Proof.
  intros HO. unfold requestOf. cbn [Z.ltb Z.compare Pos.compare Pos.compare_cont].
  rewrite map_to_list_empty.
  pose proof (HO (wRanges s1.2) _ (@nil (string * string))) as Hp.
  apply Permutation_nil_r in Hp. by rewrite Hp.
Qed.

Lemma doHTTP_sentOnce env method path body s r err s2 :
  EnvOK env →
  doHTTP env method path body 1 ∅ s = Done (r, err) s2 →
  http_NewRequest env method path = None →
  sentOnce env method path body s s2 r err.
Proof.
  intros HO Hdo Hreq.
  destruct (doHTTP_inv _ _ _ _ _ _ _ _ _ _ Hdo Hreq) as (e0 & s1 & Hr & _ & _ & Ha & ->).
  rewrite (requestOf_plain _ _ _ _ _ HO) in Ha. unfold sentOnce, madeBetween. cbn [fst snd wLog].
  rewrite (requestOf_plain _ _ _ _ _ HO).
  destruct (Refresh_log env s e0 s1 Hr) as [Hl|Hl]; rewrite Hl in Ha |- *.
  - exists []. rewrite app_nil_r. rewrite drop_app_length. by repeat split; try left.
  - exists [tokenRequest env s.1]. rewrite <- app_assoc, drop_app_length.
    by repeat split; try right.
Qed.

(** When the bucket does not resolve, every operation returns the error of
    the resolution, the object operations behind their prefix, in the state
    the resolution left: nothing but the reads of the resolution was sent. *)
Theorem unresolved_bucket_stops_operations env bucket name data fuel s url err s' :
  GetEndpointForBucket env bucket s = Done (url, Some err) s' →
  let wrapped := "Getting getting endpoint(" +:+ bucket +:+ "): " +:+ err in
  reads env s s' ∧
  DeleteBucket env bucket s = Done (Some err) s' ∧
  GetBucketLocation env bucket s = Done (EmptyString, Some err) s' ∧
  ListObjects env fuel bucket s = Done (Some ([], Some err)) s' ∧
  UploadObject env bucket name data s = Done (Some wrapped) s' ∧
  DeleteObject env bucket name s = Done (Some wrapped) s' ∧
  DownloadObject env bucket name s = Done (EmptyString, Some wrapped) s'.
Proof.
  intros Hres wrapped. split; [by eapply reads_GetEndpointForBucket|].
  unfold DeleteBucket, GetBucketLocation, ListObjects, UploadObject, DeleteObject,
    DownloadObject.
  cbv beta iota delta [mbind M_bind]. by rewrite Hres.
Qed.

(** On a resolved bucket [UploadObject], [DeleteObject] and
    [DownloadObject] send one request each, a PUT with the data, a DELETE
    and a GET of the object's path under the endpoint, with the
    Authorization header alone and after at most a token exchange. The first
    two put the method and the path before the transport's error, the third
    returns the transport's result as it is. *)
Theorem object_operations_send_one_request env bucket name data s url s1 :
  EnvOK env →
  GetEndpointForBucket env bucket s = Done (url, None) s1 →
  let path := url +:+ "/" +:+ bucket +:+ "/" +:+ name in
  (∀ err s2,
     http_NewRequest env "PUT" path = None →
     UploadObject env bucket name data s = Done err s2 →
     ∃ r e, sentOnce env "PUT" path data s1 s2 r e ∧
            err = (λ e, "PUT error(" +:+ path +:+ "): " +:+ e) <$> e) ∧
  (∀ err s2,
     http_NewRequest env "DELETE" path = None →
     DeleteObject env bucket name s = Done err s2 →
     ∃ r e, sentOnce env "DELETE" path EmptyString s1 s2 r e ∧
            err = (λ e, "DELETE error(" +:+ path +:+ "): " +:+ e) <$> e) ∧
  (∀ r err s2,
     http_NewRequest env "GET" path = None →
     DownloadObject env bucket name s = Done (r, err) s2 →
     sentOnce env "GET" path EmptyString s1 s2 r err).
Proof.
  intros HO Hres path.
  unfold UploadObject, DeleteObject, DownloadObject.
  cbv beta iota zeta delta [mbind M_bind]. rewrite Hres. fold path.
  split; [|split].
  - intros err s2 Hreq.
    destruct (doHTTP env "PUT" path data 1 ∅ s1) as [[r e] s2'|] eqn:Hdo; [|done].
    pose proof (doHTTP_sentOnce _ _ _ _ _ _ _ _ HO Hdo Hreq) as Hsent.
    destruct e; intros [= <- <-]; eexists _, _; (split; [exact Hsent|done]).
  - intros err s2 Hreq.
    destruct (doHTTP env "DELETE" path EmptyString 1 ∅ s1) as [[r e] s2'|] eqn:Hdo; [|done].
    pose proof (doHTTP_sentOnce _ _ _ _ _ _ _ _ HO Hdo Hreq) as Hsent.
    destruct e; intros [= <- <-]; eexists _, _; (split; [exact Hsent|done]).
  - intros r err s2 Hreq.
    destruct (doHTTP env "GET" path EmptyString 1 ∅ s1) as [[r' e] s2'|] eqn:Hdo; [|done].
    intros [= <- <- <-]. by apply doHTTP_sentOnce.
Qed.

(** With a service instance id of fewer than fifteen bytes the slice in the
    argument of [Debug] is out of range: [ListBuckets] panics, and so does
    the resolution of every bucket that is not cached. *)
Theorem short_ID_panics env name s :
  String.length (ID s.1) < 15 →
  http_NewRequest env "GET" "https://s3.us.cloud-object-storage.appdomain.cloud?extended"
    = None →
  ListBuckets env s = Panic "slice bounds out of range" ∧
  (∀ endpoints s0,
     cached s.1 name = None →
     GetCOSEndpoints env s = Done (endpoints, None) s0 →
     GetEndpointForBucket env name s = Panic "slice bounds out of range").
Proof.
  intros Hid Hreq.
  assert (∀ s0, ID s0.1 = ID s.1 → ListBuckets env s0 = Panic "slice bounds out of range")
    as Hlist.
  { intros s0 Hs0. unfold ListBuckets. cbv beta iota zeta delta [mbind M_bind].
    change ("https://s3.us.cloud-object-storage.appdomain.cloud" +:+ "?extended")
      with "https://s3.us.cloud-object-storage.appdomain.cloud?extended".
    assert (doHTTP env "GET" "https://s3.us.cloud-object-storage.appdomain.cloud?extended"
              EmptyString 2 ∅ s0 = Panic "slice bounds out of range") as ->; [|done].
    destruct (Refresh_returns env s0) as (e0 & s1 & Hr & _).
    destruct (Refresh_keeps env s0 e0 s1 Hr) as [(_ & _ & Hk) _].
    unfold doHTTP. cbv beta iota delta [mbind M_bind]. rewrite Hr, Hreq. run_M.
    destruct (sliceTo _ 15); [|done]. cbn [Z.ltb Z.compare Pos.compare Pos.compare_cont].
    unfold sliceTo. rewrite Hk, Hs0.
    destruct (15 <=? String.length (ID s.1)) eqn:Hl; [|done].
    apply Nat.leb_le in Hl. lia. }
  split; [by apply Hlist|].
  intros endpoints s0 Hmiss Hcos.
  unfold GetEndpointForBucket. cbv beta iota delta [mbind M_bind getClient].
  rewrite Hmiss, Hcos, Hlist; [done|].
  by rewrite (GetCOSEndpoints_client _ _ _ _ Hcos).
Qed.

(** ** Progress of the coordinator *)

Lemma sum_list_with_insert {A} (f : A → nat) (l : list A) i x y :
  l !! i = Some x →
  sum_list_with f (<[i:=y]> l) + f x = sum_list_with f l + f y.
Proof.
  revert i. induction l as [|a l IH]; intros [|i] Hi; simplify_eq/=; [lia|].
  specialize (IH _ Hi). lia.
Qed.

Lemma work_setPhase s i g ph :
  gos s !! i = Some g →
  work (setPhase s i g ph) + rank (gPhase g) = work s + rank ph.
Proof.
  intros Hi. unfold work, setPhase. cbn [gos].
  exact (sum_list_with_insert (λ g, rank (gPhase g)) (gos s) i g
           (mkGoroutine (gObjects g) ph) Hi).
Qed.

Lemma live_pos s : live s ≠ 0 → ∃ i g, gos s !! i = Some g ∧ gPhase g ≠ Finished.
Proof.
  unfold live. induction (gos s) as [|g l IH]; [done|].
  rewrite filter_cons. case_decide as Hg.
  - intros _. by exists 0, g.
  - intros Hl. destruct (IH Hl) as (i & g' & Hi & Hg'). by exists (S i), g'.
Qed.

(** A step of an unfinished goroutine crashes the program or brings the
    goroutine closer to its end, and leaves the coordinator where it is. *)
Lemma goStep_work env name i s g :
  crashed (pc s) = false → gos s !! i = Some g → gPhase g ≠ Finished →
  crashed (pc (goStep env name i s)) = true ∨
  (work (goStep env name i s) < work s ∧
   pc (goStep env name i s) = pc s ∧
   objs (goStep env name i s) = objs s ∧
   start (goStep env name i s) = start s).
Proof.
  intros Hcr Hi Hg. rewrite goStep_unfold, Hcr, Hi.
  destruct (gPhase g) eqn:Hph; try done.
  - right. pose proof (work_setPhase s i g Calling Hi) as Hw.
    rewrite Hph in Hw. cbn [rank] in Hw. split; [revert Hw; unfold work, setShared, setResErr, setCount, setPhase; cbn [gos]; lia|done].
  - destruct (DeleteObjects env name (gObjects g) (shared s)) as [[e|] st|msg]; [| |by left].
    + right. pose proof (work_setPhase s i g (Failed e) Hi) as Hw.
      rewrite Hph in Hw. cbn [rank] in Hw. split; [revert Hw; unfold work, setShared, setResErr, setCount, setPhase; cbn [gos]; lia|done].
    + right. pose proof (work_setPhase s i g Exiting Hi) as Hw.
      rewrite Hph in Hw. cbn [rank] in Hw. split; [revert Hw; unfold work, setShared, setResErr, setCount, setPhase; cbn [gos]; lia|done].
  - right. pose proof (work_setPhase s i g (Storing (wrapErr (resErr s))) Hi) as Hw.
    rewrite Hph in Hw. cbn [rank] in Hw. split; [revert Hw; unfold work, setShared, setResErr, setCount, setPhase; cbn [gos]; lia|done].
  - right. pose proof (work_setPhase s i g Exiting Hi) as Hw.
    rewrite Hph in Hw. cbn [rank] in Hw.
    split; [revert Hw; unfold work, setShared, setResErr, setCount, setPhase; cbn [gos]; lia|done].
  - right. pose proof (work_setPhase s i g Finished Hi) as Hw.
    rewrite Hph in Hw. cbn [rank] in Hw.
    split; [revert Hw; unfold work, setShared, setResErr, setCount, setPhase; cbn [gos]; lia|done].
Qed.

(** The goroutines can always be run to their end. *)
Lemma settle env name n s :
  work s ≤ n → crashed (pc s) = false →
  ∃ sched,
    crashed (pc (run env name sched s)) = true ∨
    (live (run env name sched s) = 0 ∧
     pc (run env name sched s) = pc s ∧
     objs (run env name sched s) = objs s ∧
     start (run env name sched s) = start s).
Proof.
  revert s. induction n as [|n IH]; intros s Hn Hcr.
  - destruct (decide (live s = 0)) as [Hl|Hl]; [exists []; by right|].
    destruct (live_pos s Hl) as (i & g & Hi & Hg).
    destruct (goStep_work env name i s g Hcr Hi Hg) as [Hc|[Hw _]]; [|lia].
    exists [Go i]. by left.
  - destruct (decide (live s = 0)) as [Hl|Hl]; [exists []; by right|].
    destruct (live_pos s Hl) as (i & g & Hi & Hg).
    destruct (goStep_work env name i s g Hcr Hi Hg) as [Hc|(Hw & Hpc & Hobjs & Hstart)].
    { exists [Go i]. by left. }
    destruct (IH (goStep env name i s)) as [sched Hs]; [lia|by rewrite Hpc|].
    exists (Go i :: sched). cbn [run foldl step]. fold (run env name sched (goStep env name i s)).
    destruct Hs as [?|(? & ? & ? & ?)]; [by left|right]. repeat split; congruence.
Qed.

Lemma crashed_stopped p : crashed p = true → stopped p = true.
Proof. by destruct p. Qed.

(** From a state that has not stopped, some steps stop the program or
    bring the coordinator closer to its return. *)
Lemma coordinator_progress env name listing bs s :
  capInv s → batchInv listing bs s → stopped (pc s) = false →
  ∃ sched,
    stopped (pc (run env name sched s)) = true ∨
    togo (run env name sched s) < togo s.
Proof.
  intros Hcap Hbatch Hgo.
  assert (crashed (pc s) = false) as Hcr by (by destruct (pc s)).
  destruct (Hbatch Hcr) as (Hobjs & Hse & Hle & _).
  destruct (pc s) as [|o|o|o| | | |] eqn:Hpc; try done.
  - exists [Main]. right. cbn [run foldl step]. unfold mainStep. rewrite Hpc.
    case_decide as Hne.
    + unfold togo. cbn [pc objs start]. rewrite Hpc.
      destruct (batchEnd_bounds (start s) (length (objs s))) as [? _]; [|lia].
      rewrite Hobjs in *. lia.
    + unfold togo, setPC. cbn [pc objs start]. rewrite Hpc. lia.
  - destruct (settle env name (work s) s) as [sched Hs]; [lia|by rewrite Hpc|].
    destruct Hs as [Hc|(Hl & Hpc' & Hobjs' & Hstart')].
    { exists sched. left. by apply crashed_stopped. }
    exists (sched ++ [Main]). right. rewrite run_app.
    pose proof (capInv_run env name sched s Hcap) as [_ Hcap'].
    set (s1 := run env name sched s) in *. rewrite Hpc in Hpc'.
    destruct Hcap' as (Hcount & _); [by rewrite Hpc'|].
    rewrite Hl, Hpc' in Hcount. change (count s1 = 0%Z) in Hcount.
    cbn [run foldl step]. unfold mainStep. rewrite Hpc', Hcount. change (10 <=? 0)%Z with false. cbv iota.
    unfold togo, setPC. cbn [pc objs start]. rewrite Hpc, Hobjs', Hstart'. lia.
  - exists [Main]. right. cbn [run foldl step]. unfold mainStep. rewrite Hpc.
    unfold togo, setPC, setCount. cbn [pc objs start]. rewrite Hpc. lia.
  - exists [Main]. right. cbn [run foldl step]. unfold mainStep. rewrite Hpc.
    unfold togo. cbn [pc objs start]. rewrite Hpc. lia.
  - destruct (settle env name (work s) s) as [sched Hs]; [lia|by rewrite Hpc|].
    destruct Hs as [Hc|(Hl & Hpc' & Hobjs' & Hstart')].
    { exists sched. left. by apply crashed_stopped. }
    exists (sched ++ [Main]). right. rewrite run_app.
    pose proof (capInv_run env name sched s Hcap) as [_ Hcap'].
    set (s1 := run env name sched s) in *. rewrite Hpc in Hpc'.
    destruct Hcap' as (Hcount & _); [by rewrite Hpc'|].
    rewrite Hl, Hpc' in Hcount. change (count s1 = 0%Z) in Hcount.
    cbn [run foldl step]. unfold mainStep. rewrite Hpc', Hcount. change (0 <? 0)%Z with false. cbv iota.
    unfold togo, setPC. cbn [pc objs start]. rewrite Hpc. lia.
  - exists [Main]. left. cbn [run foldl step]. unfold mainStep. by rewrite Hpc.
Qed.

Lemma coordinator_finishes env name listing bs n s :
  togo s ≤ n → capInv s → batchInv listing bs s →
  ∃ sched, stopped (pc (run env name sched s)) = true.
Proof.
  revert s. induction n as [|n IH]; intros s Hn Hcap Hbatch;
    (destruct (stopped (pc s)) eqn:Hgo; [by exists []|]);
    destruct (coordinator_progress env name listing bs s Hcap Hbatch Hgo)
      as [sched [Hs|Hs]]; try (by exists sched); try lia.
  destruct (IH (run env name sched s)) as [sched' Hs']; [lia| | |].
  - by apply capInv_run.
  - by apply batchInv_run.
  - exists (sched ++ sched'). by rewrite run_app.
Qed.

(** The coordinator cannot get stuck: from every state it and the goroutines
    can reach after a listing, some continuation of the schedule ends with
    the coordinator returned or the program crashed by a panic of
    [DeleteObjects]. *)
Theorem coordinator_can_always_return env name listing st sched :
  ∃ sched',
    stopped (pc (run env name (sched ++ sched') (enter listing None st))) = true.
Proof.
  destruct (decide (listing = [])) as [->|Hne].
  - exists []. rewrite app_nil_r.
    by rewrite (run_returned env name sched (enter [] None st) None).
  - destruct (batchLoop_total (length listing) listing 0) as (bs & Hbs & _); [lia|lia|].
    destruct (coordinator_finishes env name listing bs
                (togo (run env name sched (enter listing None st)))
                (run env name sched (enter listing None st))) as [sched' Hs]; [done| | |].
    + apply capInv_run, capInv_enter.
    + by apply batchInv_run, batchInv_enter.
    + exists sched'. by rewrite run_app.
Qed.

(** ** Further runs of the concrete service *)

(** The batch of [oneBatch] has failed after the goroutine's second step. *)
Lemma failed_batch_is_reported_witness :
  ∃ g err r,
    gos (run (env true 500) "mybucket" [Main; Main; Main; Main; Go 0; Go 0]
           (enter [object_a] None (valid, world))) !! 0 = Some g ∧
    gPhase g = Failed err ∧
    pc (run (env true 500) "mybucket"
          ([Main; Main; Main; Main; Go 0; Go 0] ++ [Go 0; Go 0; Go 0; Main; Main; Main])
          (enter [object_a] None (valid, world))) = Returned r ∧
    r ≠ None.
Proof.
  eexists _, _, _.
  split; [vm_compute; reflexivity|].
  split; [vm_compute; reflexivity|].
  split; [vm_compute; reflexivity|].
  eapply (failed_batch_is_reported (env true 500) "mybucket" [object_a] (valid, world)
            [Main; Main; Main; Main; Go 0; Go 0] [Go 0; Go 0; Go 0; Main; Main; Main] 0);
    vm_compute; reflexivity.
Defined.

(** The same from a new client: the bucket itself is left alone. *)
Lemma DeleteBucketAll_after_failed_batch_witness :
  ∃ st' g err out,
    ListObjects (env true 500) 1 "mybucket" (fresh, world)
      = Done (Some ([object_a], None)) st' ∧
    gos (run (env true 500) "mybucket" [Main; Main; Main; Main; Go 0; Go 0]
           (enter [object_a] None st')) !! 0 = Some g ∧
    gPhase g = Failed err ∧
    DeleteBucketAll (env true 500) "mybucket" 1
      ([Main; Main; Main; Main; Go 0; Go 0] ++ [Go 0; Go 0; Go 0; Main; Main; Main])
      (fresh, world) = Some out ∧
    ((∃ msg, out = Panic msg) ∨
     ∃ e, out = Done (Some e)
                  (shared (run (env true 500) "mybucket"
                             ([Main; Main; Main; Main; Go 0; Go 0] ++
                              [Go 0; Go 0; Go 0; Main; Main; Main])
                             (enter [object_a] None st')))).
Proof.
  eexists _, _, _, _.
  split; [vm_compute; reflexivity|].
  split; [vm_compute; reflexivity|].
  split; [vm_compute; reflexivity|].
  split; [vm_compute; reflexivity|].
  eapply (DeleteBucketAll_after_failed_batch (env true 500) "mybucket" 1 (fresh, world)
            [object_a] _ [Main; Main; Main; Main; Go 0; Go 0]
            [Go 0; Go 0; Go 0; Main; Main; Main] 0);
    vm_compute; reflexivity.
Defined.

(** A bucket that is not in the listing. *)
Lemma listing_error_starts_nothing_witness :
  ∃ st',
    ListObjects (env true 200) 1 "nosuchbucket" (valid, world)
      = Done (Some ([], Some "Can't find bucket: nosuchbucket")) st' ∧
    ∃ c, DeleteBucketContents (env true 200) "nosuchbucket" 1 oneBatch (valid, world)
           = Some c ∧
         pc c = Returned (Some ("Error getting bucket contents: " +:+
                                "Can't find bucket: nosuchbucket")) ∧
         gos c = [] ∧ shared c = st'.
Proof.
  assert (∃ st', ListObjects (env true 200) 1 "nosuchbucket" (valid, world)
                 = Done (Some ([], Some "Can't find bucket: nosuchbucket")) st')
    as [st' Hlist] by (eexists; vm_compute; reflexivity).
  exists st'. split; [exact Hlist|].
  exact (listing_error_starts_nothing (env true 200) "nosuchbucket" 1 (valid, world) []
           "Can't find bucket: nosuchbucket" st' oneBatch Hlist).
Defined.

(** The listing of [mybucket] is answered with a 200. *)
Lemma doHTTP_ok_iff_2xx_witness :
  ∃ s2,
    doHTTP (env true 200) "GET" objectsURL EmptyString 1 ∅ (valid, world)
      = Done (objectsBody, None) s2 ∧
    http_NewRequest (env true 200) "GET" objectsURL = None ∧
    ∃ e0 s1,
      Refresh (env true 200) (valid, world) = Done e0 s1 ∧
      wLog s2.2 = wLog s1.2 ++ [requestOf (env true 200) "GET" objectsURL EmptyString 1 ∅ s1] ∧
      ((None : error) = None ↔
       ∃ code status,
         http_Do (env true 200) (wLog s1.2)
           (requestOf (env true 200) "GET" objectsURL EmptyString 1 ∅ s1)
           = Responded code status objectsBody ∧ (200 ≤ code ≤ 299)%Z) ∧
      ((None : error) ≠ None → objectsBody = EmptyString).
Proof.
  assert (∃ s2, doHTTP (env true 200) "GET" objectsURL EmptyString 1 ∅ (valid, world)
                = Done (objectsBody, None) s2)
    as [s2 Hdo] by (eexists; vm_compute; reflexivity).
  exists s2. split; [exact Hdo|]. split; [reflexivity|].
  exact (doHTTP_ok_iff_2xx (env true 200) "GET" objectsURL EmptyString 1 ∅ (valid, world)
           objectsBody None s2 Hdo eq_refl).
Defined.


(** Resolving a bucket that is not in the listing. *)
Lemma resolution_only_reads_witness :
  ∃ s',
    GetEndpointForBucket (env true 200) "nosuchbucket" (fresh, world)
      = Done (EmptyString, Some "Can't find bucket: nosuchbucket") s' ∧
    rMethod <$> madeBetween (fresh, world) s' = ["GET"; "POST"; "GET"] ∧
    reads (env true 200) (fresh, world) s' ∧
    (Some "Can't find bucket: nosuchbucket" ≠ None →
     EmptyString = EmptyString ∧ Endpoints s'.1 = Endpoints (fresh, world).1).
Proof.
  assert (∃ s', GetEndpointForBucket (env true 200) "nosuchbucket" (fresh, world)
                  = Done (EmptyString, Some "Can't find bucket: nosuchbucket") s' ∧
                rMethod <$> madeBetween (fresh, world) s' = ["GET"; "POST"; "GET"])
    as (s' & Hres & Hlog) by (eexists; split; vm_compute; reflexivity).
  exists s'. split; [exact Hres|]. split; [exact Hlog|].
  exact (resolution_only_reads (env true 200) "nosuchbucket" (fresh, world) EmptyString
           (Some "Can't find bucket: nosuchbucket") s' Hres).
Defined.

(** The first call fetches the topology. *)
Lemma GetCOSEndpoints_remembers_witness :
  ∃ s1,
    GetCOSEndpoints (env true 200) (valid, world) = Done (Some topology, None) s1 ∧
    s1.1 = (valid, world).1 ∧ length (madeBetween (valid, world) s1) ≤ 1 ∧
    ∀ s2, pkgEndpoints s2.2 = pkgEndpoints s1.2 →
          GetCOSEndpoints (env true 200) s2 = Done (Some topology, None) s2.
Proof.
  assert (∃ s1, GetCOSEndpoints (env true 200) (valid, world)
                = Done (Some topology, None) s1)
    as [s1 Hcos] by (eexists; vm_compute; reflexivity).
  exists s1. split; [exact Hcos|].
  exact (GetCOSEndpoints_remembers (env true 200) (valid, world) topology s1 Hcos).
Defined.

(** [mybucket] resolves to the [us-geo] endpoint of the topology. *)
Lemma resolved_url_is_public_endpoint_witness :
  EnvOK (env true 200) ∧
  cached (fresh, world).1 "mybucket" = None ∧
  ∃ s',
    GetEndpointForBucket (env true 200) "mybucket" (fresh, world)
      = Done ("https://" +:+ host, None) s' ∧
    ∃ e daType reg name' host',
      pkgEndpoints s'.2 = Some e ∧
      daType ∈ ["cross-region"; "single-site"; "regional"] ∧
      publicNames e daType reg !! name' = Some host' ∧
      "https://" +:+ host = "https://" +:+ host'.
Proof.
  split; [apply Scenario_EnvOK|]. split; [reflexivity|].
  assert (∃ s', GetEndpointForBucket (env true 200) "mybucket" (fresh, world)
                = Done ("https://" +:+ host, None) s')
    as [s' Hres] by (eexists; vm_compute; reflexivity).
  exists s'. split; [exact Hres|].
  exact (resolved_url_is_public_endpoint (env true 200) "mybucket" (fresh, world)
           ("https://" +:+ host) s' (Scenario_EnvOK true 200) eq_refl Hres).
Defined.

(** The listing holds [mybucket] only. *)
Lemma unknown_bucket_is_not_found_witness :
  ∃ endpoints s0 buckets s1,
    cached (valid, world).1 "nosuchbucket" = None ∧
    GetCOSEndpoints (env true 200) (valid, world) = Done (endpoints, None) s0 ∧
    ListBuckets (env true 200) s0 = Done (Some buckets, None) s1 ∧
    Forall (λ b, bName b ≠ "nosuchbucket") buckets ∧
    GetEndpointForBucket (env true 200) "nosuchbucket" (valid, world) =
      Done (EmptyString, Some ("Can't find bucket: " +:+ "nosuchbucket")) s1.
Proof.
  assert (∃ endpoints s0 buckets s1,
            GetCOSEndpoints (env true 200) (valid, world) = Done (endpoints, None) s0 ∧
            ListBuckets (env true 200) s0 = Done (Some buckets, None) s1 ∧
            bName <$> buckets = ["mybucket"])
    as (endpoints & s0 & buckets & s1 & Hcos & Hlist & Hnames)
    by (eexists _, _, _, _; split; [|split]; vm_compute; reflexivity).
  assert (Forall (λ b, bName b ≠ "nosuchbucket") buckets) as Hall.
  { destruct buckets as [|b [|b' rest]]; try discriminate.
    apply Forall_singleton. injection Hnames as ->. discriminate. }
  exists endpoints, s0, buckets, s1.
  split; [reflexivity|]. split; [exact Hcos|]. split; [exact Hlist|]. split; [exact Hall|].
  exact (unknown_bucket_is_not_found (env true 200) "nosuchbucket" (valid, world)
           endpoints s0 buckets s1 eq_refl Hcos Hlist Hall).
Defined.

(** Listing a bucket that cannot be resolved. *)
Lemma ListObjects_only_reads_witness :
  ∃ s',
    ListObjects (env true 200) 1 "nosuchbucket" (valid, world)
      = Done (Some ([], Some "Can't find bucket: nosuchbucket")) s' ∧
    reads (env true 200) (valid, world) s' ∧
    (Some "Can't find bucket: nosuchbucket" ≠ None → @nil ObjectMetadata = []).
Proof.
  assert (∃ s', ListObjects (env true 200) 1 "nosuchbucket" (valid, world)
                = Done (Some ([], Some "Can't find bucket: nosuchbucket")) s')
    as [s' Hlist] by (eexists; vm_compute; reflexivity).
  exists s'. split; [exact Hlist|].
  exact (ListObjects_only_reads (env true 200) 1 "nosuchbucket" (valid, world) []
           (Some "Can't find bucket: nosuchbucket") s' Hlist).
Defined.


(** Every operation on a bucket that is not in the listing. *)
Lemma unresolved_bucket_stops_operations_witness :
  ∃ s',
    GetEndpointForBucket (env true 200) "nosuchbucket" (valid, world)
      = Done (EmptyString, Some "Can't find bucket: nosuchbucket") s' ∧
    reads (env true 200) (valid, world) s' ∧
    DeleteBucket (env true 200) "nosuchbucket" (valid, world)
      = Done (Some "Can't find bucket: nosuchbucket") s' ∧
    UploadObject (env true 200) "nosuchbucket" "a.txt" "hello" (valid, world)
      = Done (Some "Getting getting endpoint(nosuchbucket): Can't find bucket: nosuchbucket") s'.
Proof.
  assert (∃ s', GetEndpointForBucket (env true 200) "nosuchbucket" (valid, world)
                = Done (EmptyString, Some "Can't find bucket: nosuchbucket") s')
    as [s' Hres] by (eexists; vm_compute; reflexivity).
  exists s'. split; [exact Hres|].
  destruct (unresolved_bucket_stops_operations (env true 200) "nosuchbucket" "a.txt"
              "hello" 1 (valid, world) EmptyString "Can't find bucket: nosuchbucket" s' Hres)
    as (Hreads & Hdel & _ & _ & Hup & _).
  split; [exact Hreads|]. split; [exact Hdel|]. exact Hup.
Defined.

(** Uploading [a.txt] to [mybucket]: the service answers 404 to the one
    PUT. *)
Lemma object_operations_send_one_request_witness :
  EnvOK (env true 200) ∧
  ∃ s1 s2,
    GetEndpointForBucket (env true 200) "mybucket" (valid, world)
      = Done ("https://" +:+ host, None) s1 ∧
    http_NewRequest (env true 200) "PUT"
      ("https://s3.us.cloud-object-storage.appdomain.cloud/mybucket/a.txt") = None ∧
    UploadObject (env true 200) "mybucket" "a.txt" "hello" (valid, world)
      = Done (Some "PUT error(https://s3.us.cloud-object-storage.appdomain.cloud/mybucket/a.txt): 404 Not Found") s2 ∧
    rMethod <$> madeBetween s1 s2 = ["PUT"] ∧
    ∃ r e,
      sentOnce (env true 200) "PUT"
        "https://s3.us.cloud-object-storage.appdomain.cloud/mybucket/a.txt" "hello" s1 s2 r e ∧
      Some "PUT error(https://s3.us.cloud-object-storage.appdomain.cloud/mybucket/a.txt): 404 Not Found"
      = (λ e, "PUT error(" +:+
              "https://s3.us.cloud-object-storage.appdomain.cloud/mybucket/a.txt" +:+
              "): " +:+ e) <$> e.
Proof.
  split; [apply Scenario_EnvOK|].
  assert (∃ s1 s2,
            GetEndpointForBucket (env true 200) "mybucket" (valid, world)
              = Done ("https://" +:+ host, None) s1 ∧
            UploadObject (env true 200) "mybucket" "a.txt" "hello" (valid, world)
              = Done (Some "PUT error(https://s3.us.cloud-object-storage.appdomain.cloud/mybucket/a.txt): 404 Not Found") s2 ∧
            rMethod <$> madeBetween s1 s2 = ["PUT"])
    as (s1 & s2 & Hres & Hup & Hlog)
    by (eexists _, _; split; [|split]; vm_compute; reflexivity).
  exists s1, s2. split; [exact Hres|]. split; [reflexivity|]. split; [exact Hup|].
  split; [exact Hlog|].
  exact (proj1 (object_operations_send_one_request (env true 200) "mybucket" "a.txt" "hello"
                  (valid, world) ("https://" +:+ host) s1 (Scenario_EnvOK true 200) Hres)
           _ s2 eq_refl Hup).
Defined.

(** A service instance id of ten bytes: the listing of the buckets, and
    with it the first resolution of any bucket, crashes. *)
Lemma short_ID_panics_witness :
  String.length (ID (shortID, world).1) < 15 ∧
  ListBuckets (env true 200) (shortID, world) = Panic "slice bounds out of range" ∧
  ∃ s0,
    GetCOSEndpoints (env true 200) (shortID, world) = Done (Some topology, None) s0 ∧
    GetEndpointForBucket (env true 200) "mybucket" (shortID, world)
      = Panic "slice bounds out of range".
Proof.
  assert (String.length (ID (shortID, world).1) < 15) as Hlen by (vm_compute; lia).
  assert (∃ s0, GetCOSEndpoints (env true 200) (shortID, world)
                = Done (Some topology, None) s0)
    as [s0 Hcos] by (eexists; vm_compute; reflexivity).
  destruct (short_ID_panics (env true 200) "mybucket" (shortID, world) Hlen eq_refl)
    as [Hlist Hres].
  split; [exact Hlen|]. split; [exact Hlist|]. exists s0. split; [exact Hcos|].
  exact (Hres (Some topology) s0 eq_refl Hcos).
Defined.
